(** * A minimal Pratt parser for single-digit arithmetic: model and properties

    The repository holds three snapshots of one Go program, each a complete
    [package main]:

    - [src/main.go]            (module [Main]):    unary prefix operators, a
      half-written parenthesis branch, [next] returning [nil] when exhausted;
    - [src/unnamed/part_000]   (module [Part000]): unary prefix operators,
      no parenthesis branch;
    - [src/unnamed/part_001]   (module [Part001]): integers and infix
      operators only, [next] panicking when exhausted, and a [Reverse] whose
      loop guard is [e-s > 1].

    The code shared verbatim by the three files is modelled once; the
    functions that differ are modelled per file.  Go's [int] is taken to be
    the 64-bit two's-complement integer of the usual targets. *)

From Stdlib Require Import ZArith Ascii String DecimalString Lia.
From stdpp Require Import gmap strings list.
From Equations Require Import Equations.

Local Open Scope Z_scope.

(* ===================================================================== *)
(** ** The Go runtime as far as the program uses it *)
(* ===================================================================== *)

(** How a Go computation can stop without returning.  [Explicit] is a
    [panic("...")] written in the program; the other three are raised by
    the runtime itself. *)
Inductive panic : Type :=
  | Explicit (msg : string)   (* panic("msg") *)
  | NilDereference            (* method or function call through nil *)
  | IndexOutOfRange           (* s[i] with i >= len(s) *)
  | DivideByZero.             (* integer divide by zero *)

(** The result of running a piece of the program.  [OutOfFuel] belongs to
    the model only: it is what a fuel-bounded definition answers when its
    fuel is used up, and the termination theorems show it is never the
    answer once the fuel exceeds the number of tokens. *)
Inductive outcome (A : Type) : Type :=
  | Return (a : A)
  | Panic (p : panic)
  | OutOfFuel.
Arguments Return {A} a.
Arguments Panic {A} p.
Arguments OutOfFuel {A}.

Definition obind {A B} (o : outcome A) (k : A -> outcome B) : outcome B :=
  match o with
  | Return a => k a
  | Panic p => Panic p
  | OutOfFuel => OutOfFuel
  end.

(** A stop is explicit when the program itself asked for it. *)
Definition explicit_failure {A} (o : outcome A) : Prop :=
  exists msg, o = Panic (Explicit msg).

(** A stop is a runtime crash when the Go runtime raised it. *)
Definition runtime_crash {A} (o : outcome A) : Prop :=
  o = Panic NilDereference \/ o = Panic IndexOutOfRange \/ o = Panic DivideByZero.

Definition terminates {A} (o : outcome A) : Prop := o <> OutOfFuel.

(** *** Machine integers *)

Module GoInt.

Definition bits : Z := 64.
Definition min_int : Z := - 2 ^ (bits - 1).
Definition max_int : Z := 2 ^ (bits - 1) - 1.

(** Two's-complement wrap-around of a mathematical integer. *)
Definition wrap (x : Z) : Z := (x + 2 ^ (bits - 1)) mod 2 ^ bits - 2 ^ (bits - 1).

Definition add (a b : Z) : Z := wrap (a + b).
Definition sub (a b : Z) : Z := wrap (a - b).
Definition mul (a b : Z) : Z := wrap (a * b).

(** [a / b]: truncated division; the runtime panics on a zero divisor. *)
Definition div (a b : Z) : outcome Z :=
  if b =? 0 then Panic DivideByZero else Return (wrap (Z.quot a b)).

End GoInt.

(** *** Strings, runes and bytes *)

(** A Go string is a sequence of bytes. *)
Definition bytes_of_string (s : string) : list Z :=
  List.map (fun c => Z.of_N (N_of_ascii c)) (list_ascii_of_string s).

Definition RuneError : Z := 0xFFFD.

Definition between (lo hi b : Z) : bool := (lo <=? b) && (b <=? hi).
Definition continuation (b : Z) : bool := between 0x80 0xBF b.

Definition lead3 (b0 b1 : Z) : bool :=
  ((b0 =? 0xE0) && between 0xA0 0xBF b1)
  || (between 0xE1 0xEC b0 && continuation b1)
  || ((b0 =? 0xED) && between 0x80 0x9F b1)
  || (between 0xEE 0xEF b0 && continuation b1).

Definition lead4 (b0 b1 : Z) : bool :=
  ((b0 =? 0xF0) && between 0x90 0xBF b1)
  || (between 0xF1 0xF3 b0 && continuation b1)
  || ((b0 =? 0xF4) && between 0x80 0x8F b1).

Definition low6 (b : Z) : Z := Z.land b 0x3F.

(** [for _, char := range s]: the code points of [s], decoded from UTF-8
    from the left; a byte that starts no valid encoding yields [RuneError]
    and the iteration moves on by one byte. *)
Fixpoint range_runes (s : list Z) : list Z :=
  match s with
  | [] => []
  | b0 :: t0 =>
    if b0 <? 0x80 then b0 :: range_runes t0 else
    match t0 with
    | [] => RuneError :: range_runes t0
    | b1 :: t1 =>
      if between 0xC2 0xDF b0 && continuation b1
      then Z.lor (Z.shiftl (Z.land b0 0x1F) 6) (low6 b1) :: range_runes t1
      else
      match t1 with
      | [] => RuneError :: range_runes t0
      | b2 :: t2 =>
        if lead3 b0 b1 && continuation b2
        then Z.lor (Z.shiftl (Z.land b0 0x0F) 12)
               (Z.lor (Z.shiftl (low6 b1) 6) (low6 b2)) :: range_runes t2
        else
        match t2 with
        | [] => RuneError :: range_runes t0
        | b3 :: t3 =>
          if lead4 b0 b1 && continuation b2 && continuation b3
          then Z.lor (Z.shiftl (Z.land b0 0x07) 18)
                 (Z.lor (Z.shiftl (low6 b1) 12)
                    (Z.lor (Z.shiftl (low6 b2) 6) (low6 b3))) :: range_runes t3
          else RuneError :: range_runes t0
        end
      end
    end
  end.

(** [byte(char)]: conversion of a rune to [uint8] keeps the low eight bits. *)
Definition byte_of_rune (r : Z) : Z := Z.land r 0xFF.

Definition ascii_of_byte (b : Z) : ascii := ascii_of_N (Z.to_N b).

(** [string(c)] for a byte [c]: the UTF-8 encoding of the code point [c]. *)
Definition string_of_byte (c : Z) : string :=
  if c <? 0x80 then String (ascii_of_byte c) EmptyString
  else String (ascii_of_byte (Z.lor 0xC0 (Z.shiftr c 6)))
         (String (ascii_of_byte (Z.lor 0x80 (low6 c))) EmptyString).

(** [strconv.Atoi]: an optional sign followed by decimal digits that fit an
    [int]; [None] stands for a non-nil [err]. *)
Fixpoint digits_value (acc : Z) (s : list Z) : option Z :=
  match s with
  | [] => Some acc
  | c :: s' => if between 48 57 c then digits_value (10 * acc + (c - 48)) s' else None
  end.

Definition Atoi (s : string) : option Z :=
  let signed (neg : bool) (ds : list Z) :=
    match ds with
    | [] => None
    | _ => match digits_value 0 ds with
           | Some v => let v := if neg then - v else v in
                       if between GoInt.min_int GoInt.max_int v then Some v else None
           | None => None
           end
    end in
  match bytes_of_string s with
  | 43 :: ds => signed false ds
  | 45 :: ds => signed true ds
  | ds => signed false ds
  end.

(** [strconv.Itoa]. *)
Definition Itoa (v : Z) : string := NilZero.string_of_int (Z.to_int v).

(** [int32(x)] for an [int] [x]. *)
Definition int32 (x : Z) : Z := (x + 2 ^ 31) mod 2 ^ 32 - 2 ^ 31.

(** [a[i]] on a slice: the runtime panics outside [0 <= i < len(a)]. *)
Definition index {A} (a : list A) (i : Z) : outcome A :=
  if i <? 0 then Panic IndexOutOfRange
  else match a !! Z.to_nat i with
       | Some x => Return x
       | None => Panic IndexOutOfRange
       end.

Definition len {A} (a : list A) : Z := Z.of_nat (length a).

(* ===================================================================== *)
(** ** Tokens and the tokenizer *)
(* ===================================================================== *)

(** The dynamic types behind the [Token] interface.  [part_001] declares
    only the first two. *)
Inductive Token : Type :=
  | IntegerToken (value : Z)
  | OperatorToken (literal : string)
  | PrefixToken (literal : string).

Inductive TokenType : Type := Integer | Operand | Prefix.

Definition getTokenType (t : Token) : TokenType :=
  match t with
  | IntegerToken _ => Integer
  | OperatorToken _ => Operand
  | PrefixToken _ => Prefix
  end.

Abbreviation TokenArray := (list Token).

(** The scanning loop of [New], the same text in the three files: one pass
    over [charArray], appending to [tokenArray]. *)
Fixpoint scan (charArray : list Z) (tokenArray : TokenArray) : outcome TokenArray :=
  match charArray with
  | [] => Return tokenArray
  | c :: rest =>
    if (c =? 32) || (c =? 13) || (c =? 9) || (c =? 10) then scan rest tokenArray
    else if (48 <=? c) && (c <=? 57) then
      match Atoi (string_of_byte c) with
      | None => Panic (Explicit "This should not have happened")
      | Some intValue => scan rest (tokenArray ++ [IntegerToken (int32 intValue)])
      end
    else if (c =? 43) || (c =? 45) || (c =? 42) || (c =? 47) then
      scan rest (tokenArray ++ [OperatorToken (string_of_byte c)])
    else scan rest tokenArray
  end.

(** The first loop of [New]: every rune of the input is written to the
    buffer as one byte. *)
Definition charArray (input : string) : list Z :=
  List.map byte_of_rune (range_runes (bytes_of_string input)).

(** The token sequence [New] holds just before it calls [Reverse]: the
    tokenizer's output in input order. *)
Definition tokenize (input : string) : outcome TokenArray :=
  scan (charArray input) [].

(** The loop body of [Reverse]: exchange [c[s]] and [c[e]]. *)
Definition swap (c : TokenArray) (s e : Z) : outcome TokenArray :=
  obind (index c s) (fun temp =>
  obind (index c e) (fun ce =>
  Return (<[Z.to_nat e := temp]> (<[Z.to_nat s := ce]> c)))).

(** [Reverse] of [main.go] and [part_000]: the loop runs while [e-s >= 1]. *)
Equations? Reverse_loop (c : TokenArray) (s e : Z) : outcome TokenArray
  by wf (Z.to_nat (e - s)) lt :=
  Reverse_loop c s e with Z_ge_dec (e - s) 1 := {
    | left _ with swap c s e := {
        | Return c' => Reverse_loop c' (s + 1) (e - 1)
        | Panic p => Panic p
        | OutOfFuel => OutOfFuel }
    | right _ => Return c }.
Proof. lia. Qed.

(** [Reverse] of [part_001]: the loop runs while [e-s > 1]. *)
Equations? Reverse_loop_strict (c : TokenArray) (s e : Z) : outcome TokenArray
  by wf (Z.to_nat (e - s)) lt :=
  Reverse_loop_strict c s e with Z_gt_dec (e - s) 1 := {
    | left _ with swap c s e := {
        | Return c' => Reverse_loop_strict c' (s + 1) (e - 1)
        | Panic p => Panic p
        | OutOfFuel => OutOfFuel }
    | right _ => Return c }.
Proof. lia. Qed.

(* ===================================================================== *)
(** ** The token cursor *)
(* ===================================================================== *)

(** [Lexer.tokens] holds the tokens in reverse: the next token to deliver
    is the last element of the slice. *)
Record Lexer : Type := { tokens : TokenArray }.

(** A method on [*Lexer]: it reads and updates the one lexer, and either
    returns a value or panics. *)
Definition M (A : Type) : Type := Lexer -> outcome (A * Lexer).

Definition ret {A} (a : A) : M A := fun l => Return (a, l).
Definition bind {A B} (m : M A) (k : A -> M B) : M B :=
  fun l => match m l with
           | Return (a, l') => k a l'
           | Panic p => Panic p
           | OutOfFuel => OutOfFuel
           end.
Definition throw {A} (p : panic) : M A := fun _ => Panic p.
Definition lift {A} (o : outcome A) : M A :=
  fun l => obind o (fun a => Return (a, l)).

Notation "'let*' x ':=' m 'in' k" := (bind m (fun x => k))
  (at level 10, x pattern, m at level 100, k at level 200).

(** [peek], the same text in the three files; [None] is Go's [nil]. *)
Definition peek : M (option Token) := fun l =>
  if len (tokens l) <? 1 then Return (None, l)
  else obind (index (tokens l) (len (tokens l) - 1)) (fun t => Return (Some t, l)).

(** Removing the last token: [l.tokens = l.tokens[:len(l.tokens)-1]]. *)
Definition pop (l : Lexer) : outcome (option Token * Lexer) :=
  obind (index (tokens l) (len (tokens l) - 1)) (fun lastToken =>
  Return (Some lastToken, {| tokens := take (Z.to_nat (len (tokens l) - 1)) (tokens l) |})).

(* ===================================================================== *)
(** ** Expressions and binding powers *)
(* ===================================================================== *)

(** The values an [Expression] variable can hold: [nil], a token (every
    token type has [getExpressionValue]), or one of the two expression
    structs.  [part_001] has no [PrefixExpression]. *)
Inductive Expression : Type :=
  | NilExpression
  | TokenExpression (t : Token)
  | PrefixExpression (op : string) (rhs : Expression)
  | InfixExpression (lhs rhs : Expression) (op : string).

(** [m[k]] on a map of slices: the nil slice when the key is absent. *)
Definition map_get (m : gmap string (list Z)) (k : string) : list Z :=
  default [] (m !! k).

Definition operatorBindingPowerMap : gmap string (list Z) :=
  {[ "+" := [1; 2]; "-" := [1; 2]; "*" := [3; 4]; "/" := [3; 4] ]}%string.

Definition prefixBindingPowerMap : gmap string (list Z) :=
  {[ "+" := [0; 5]; "-" := [0; 5] ]}%string.

(** [getExpressionValue] on the token types. *)
Definition getExpressionValue (t : Token) : string :=
  match t with
  | IntegerToken value => Itoa value
  | OperatorToken literal => literal
  | PrefixToken literal => literal
  end.

(** The [for] loop of [parse], the same text in the three files.  [next] is
    the file's cursor method and [rec] the recursive call [parse(l, r_bp)].
    The two [l.peek()] of an iteration see the same token, since [peek]
    consumes nothing.  [iters] bounds the iterations of the model. *)
Section ParseLoop.
Variable next : M (option Token).
Variable rec : Z -> M Expression.

Fixpoint parse_loop (iters : nat) (min_bp : Z) (lhs : Expression) : M Expression :=
  match iters with
  | O => fun _ => OutOfFuel
  | S iters' =>
    let* t := peek in
    match t with
    | None => ret lhs
    | Some (OperatorToken literal) =>
      let* l_bp := lift (index (map_get operatorBindingPowerMap literal) 0) in
      let* r_bp := lift (index (map_get operatorBindingPowerMap literal) 1) in
      if l_bp <? min_bp then ret lhs
      else
        let* _ := next in
        let* rhs := rec r_bp in
        parse_loop iters' min_bp (InfixExpression lhs rhs literal)
    | Some _ => throw (Explicit "Integer should be followed by an operand")
    end
  end.

(** The loop entered with the tokens that are left. *)
Definition parse_rest (min_bp : Z) (lhs : Expression) : M Expression :=
  fun l => parse_loop (S (length (tokens l))) min_bp lhs l.
End ParseLoop.

(** The operator closures of [operationFunctionMap]. *)
Definition operationFunctionMap : gmap string (Z -> Z -> outcome Z) :=
  {[ "+" := (fun a b => Return (GoInt.add a b));
     "-" := (fun a b => Return (GoInt.sub a b));
     "*" := (fun a b => Return (GoInt.mul a b));
     "/" := GoInt.div ]}%string.

(** Calling [operationFunctionMap[op]]: a nil function when [op] is no key. *)
Definition call (f : option (Z -> Z -> outcome Z)) (a b : Z) : outcome Z :=
  match f with
  | Some f => f a b
  | None => Panic NilDereference
  end.

(** [evalPrefix] of [main.go] and [part_000], over the evaluator it calls. *)
Definition evalPrefix (evalExpression : Expression -> outcome Z)
    (op : string) (rhs : Expression) : outcome Z :=
  if String.eqb op "+" then obind (evalExpression rhs) (fun v => Return (GoInt.mul 1 v))
  else if String.eqb op "-" then obind (evalExpression rhs) (fun v => Return (GoInt.mul (-1) v))
  else Panic (Explicit "Should not reach here").

(** [in.ReadString('\n')]: the input up to and including the first newline;
    [None] is the error returned when the input ends before one. *)
Fixpoint ReadString (stdin : string) : option string :=
  match stdin with
  | EmptyString => None
  | String c rest =>
    if Ascii.eqb c "010"%char then Some (String c EmptyString)
    else option_map (String c) (ReadString rest)
  end.

Definition newline : string := String "010"%char EmptyString.

(** [fmt.Println] of an [int]. *)
Definition Println (v : Z) : string := (Itoa v ++ newline)%string.

(* ===================================================================== *)
(** ** [src/main.go] *)
(* ===================================================================== *)

Module Main.

Definition Reverse (c : TokenArray) : outcome TokenArray :=
  Reverse_loop c 0 (len c - 1).

Definition New (input : string) : outcome Lexer :=
  obind (tokenize input) (fun tokenArray =>
  obind (Reverse tokenArray) (fun reversed =>
  Return {| tokens := reversed |})).

(** [next]: [nil], and nothing consumed, when no token is left. *)
Definition next : M (option Token) := fun l =>
  if len (tokens l) =? 0 then Return (None, l) else pop l.

(** One activation of [parse]; [rec] is the recursive call [parse(l, bp)].
    The [switch] on [getTokenType] followed by the type assertion of each
    case is the match on the token's dynamic type. *)
Definition parse_call (rec : Z -> M Expression) (min_bp : Z) : M Expression :=
  let* lhsExpr := next in
  match lhsExpr with
  | None => throw NilDereference
  | Some (IntegerToken value) =>
    parse_rest next rec min_bp (TokenExpression (IntegerToken value))
  | Some (OperatorToken literal) =>
    let* _ :=
      (if String.eqb literal "(" then
         let* _ := next in
         let* expr := rec 0 in
         let* closing := peek in
         match closing with
         | None => throw NilDereference
         | Some t =>
           if String.eqb (getExpressionValue t) ")" then ret tt
           else throw (Explicit "Expected right paren")
         end
       else ret tt) in
    let* r_bp := lift (index (map_get prefixBindingPowerMap literal) 1) in
    let* rhs := rec r_bp in
    parse_rest next rec min_bp (PrefixExpression literal rhs)
  | Some (PrefixToken _) =>
    parse_rest next rec min_bp NilExpression
  end.

(** [parse]; [depth] bounds the nesting of recursive calls in the model. *)
Fixpoint parse (depth : nat) (min_bp : Z) : M Expression :=
  match depth with
  | O => fun _ => OutOfFuel
  | S depth' => parse_call (parse depth') min_bp
  end.

(** [evalExpression]: the type switch, with [return 0] after it. *)
Fixpoint evalExpression (e : Expression) : outcome Z :=
  match e with
  | TokenExpression (IntegerToken value) => Return value
  | PrefixExpression op rhs => evalPrefix evalExpression op rhs
  | InfixExpression lhs rhs op =>
    let f := operationFunctionMap !! op in
    obind (evalExpression lhs) (fun a =>
    obind (evalExpression rhs) (fun b =>
    call f a b))
  | _ => Return 0
  end.

(** Tokenize, parse from binding power 0 and evaluate, as [main] does with
    the line it has read. *)
Definition run (input : string) : outcome Z :=
  obind (New input) (fun lexer =>
  obind (parse (S (length (tokens lexer))) 0 lexer) (fun '(parsed, _) =>
  evalExpression parsed)).

(** [main]: what the process writes to standard output, or the panic that
    ends it. *)
Definition main (stdin : string) : outcome string :=
  match ReadString stdin with
  | None => Panic (Explicit "Error reading string")
  | Some a => obind (run a) (fun v => Return (Println v))
  end.

End Main.

(* ===================================================================== *)
(** ** [src/unnamed/part_000] *)
(* ===================================================================== *)

Module Part000.

(** [Reverse], [New] and [next] have the text of [main.go]. *)
Definition Reverse := Main.Reverse.
Definition New := Main.New.
Definition next := Main.next.

(** One activation of [parse]: as in [main.go] without the parenthesis
    branch. *)
Definition parse_call (rec : Z -> M Expression) (min_bp : Z) : M Expression :=
  let* lhsExpr := next in
  match lhsExpr with
  | None => throw NilDereference
  | Some (IntegerToken value) =>
    parse_rest next rec min_bp (TokenExpression (IntegerToken value))
  | Some (OperatorToken literal) =>
    let* r_bp := lift (index (map_get prefixBindingPowerMap literal) 1) in
    let* rhs := rec r_bp in
    parse_rest next rec min_bp (PrefixExpression literal rhs)
  | Some (PrefixToken _) =>
    parse_rest next rec min_bp NilExpression
  end.

Fixpoint parse (depth : nat) (min_bp : Z) : M Expression :=
  match depth with
  | O => fun _ => OutOfFuel
  | S depth' => parse_call (parse depth') min_bp
  end.

(** [evalExpression]: three type assertions in turn, then a panic. *)
Fixpoint evalExpression (e : Expression) : outcome Z :=
  match e with
  | TokenExpression (IntegerToken value) => Return value
  | PrefixExpression op rhs => evalPrefix evalExpression op rhs
  | InfixExpression lhs rhs op =>
    let f := operationFunctionMap !! op in
    obind (evalExpression lhs) (fun a =>
    obind (evalExpression rhs) (fun b =>
    call f a b))
  | _ => Panic (Explicit "Undesired behaviour")
  end.

(** The value [main] prints for a parsed expression. *)
Definition printed (parsed : Expression) : outcome string :=
  match parsed with
  | InfixExpression _ _ _ => obind (evalExpression parsed) (fun v => Return (Println v))
  | TokenExpression (IntegerToken value) =>
    Return (getExpressionValue (IntegerToken value) ++ newline)%string
  | PrefixExpression _ _ => obind (evalExpression parsed) (fun v => Return (Println v))
  | _ => Panic (Explicit "Undesired behaviour")
  end.

Definition run (input : string) : outcome Z :=
  obind (New input) (fun lexer =>
  obind (parse (S (length (tokens lexer))) 0 lexer) (fun '(parsed, _) =>
  evalExpression parsed)).

Definition main (stdin : string) : outcome string :=
  match ReadString stdin with
  | None => Panic (Explicit "Error reading string")
  | Some a =>
    obind (New a) (fun lexer =>
    obind (parse (S (length (tokens lexer))) 0 lexer) (fun '(parsed, _) =>
    printed parsed))
  end.

End Part000.

(* ===================================================================== *)
(** ** [src/unnamed/part_001] *)
(* ===================================================================== *)

Module Part001.

Definition Reverse (c : TokenArray) : outcome TokenArray :=
  Reverse_loop_strict c 0 (len c - 1).

Definition New (input : string) : outcome Lexer :=
  obind (tokenize input) (fun tokenArray =>
  obind (Reverse tokenArray) (fun reversed =>
  Return {| tokens := reversed |})).

(** [next]: a panic when no token is left. *)
Definition next : M (option Token) := fun l =>
  if len (tokens l) =? 0 then Panic (Explicit "Error: tokens empty") else pop l.

(** One activation of [parse]: the leading token must be an integer. *)
Definition parse_call (rec : Z -> M Expression) (min_bp : Z) : M Expression :=
  let* first := next in
  match first with
  | Some (IntegerToken value) =>
    parse_rest next rec min_bp (TokenExpression (IntegerToken value))
  | _ => throw (Explicit "Expression should start with an integer")
  end.

Fixpoint parse (depth : nat) (min_bp : Z) : M Expression :=
  match depth with
  | O => fun _ => OutOfFuel
  | S depth' => parse_call (parse depth') min_bp
  end.

Definition add (a b : Z) : outcome Z := Return (GoInt.add a b).
Definition subtract (a b : Z) : outcome Z := Return (GoInt.sub a b).
Definition multiply (a b : Z) : outcome Z := Return (GoInt.mul a b).
Definition division (a b : Z) : outcome Z := GoInt.div a b.

Definition operationFunctionMap : gmap string (Z -> Z -> outcome Z) :=
  {[ "+" := add; "-" := subtract; "*" := multiply; "/" := division ]}%string.

(** [evalExpression]: an integer, else an infix expression, else a panic. *)
Fixpoint evalExpression (e : Expression) : outcome Z :=
  match e with
  | TokenExpression (IntegerToken value) => Return value
  | InfixExpression lhs rhs op =>
    let f := operationFunctionMap !! op in
    obind (evalExpression lhs) (fun a =>
    obind (evalExpression rhs) (fun b =>
    call f a b))
  | _ => Panic (Explicit "Undesired behaviour")
  end.

Definition printed (parsed : Expression) : outcome string :=
  match parsed with
  | InfixExpression _ _ _ => obind (evalExpression parsed) (fun v => Return (Println v))
  | TokenExpression (IntegerToken value) =>
    Return (getExpressionValue (IntegerToken value) ++ newline)%string
  | _ => Panic (Explicit "Undesired behaviour")
  end.

Definition run (input : string) : outcome Z :=
  obind (New input) (fun lexer =>
  obind (parse (S (length (tokens lexer))) 0 lexer) (fun '(parsed, _) =>
  evalExpression parsed)).

Definition main (stdin : string) : outcome string :=
  match ReadString stdin with
  | None => Panic (Explicit "Error reading string")
  | Some a =>
    obind (New a) (fun lexer =>
    obind (parse (S (length (tokens lexer))) 0 lexer) (fun '(parsed, _) =>
    printed parsed))
  end.

End Part001.

(** The tokens [n] successive [next()] calls deliver, in the order of the
    calls; a [nil] answer is kept as [None]. *)
Fixpoint deliver (next : M (option Token)) (n : nat) : M (list (option Token)) :=
  match n with
  | O => ret []
  | S n' => let* t := next in let* ts := deliver next n' in ret (t :: ts)
  end.

(* ===================================================================== *)
(** ** Notions used in the statements *)
(* ===================================================================== *)

(** The token one byte of [charArray] contributes, if any. *)
Definition token_of_byte (c : Z) : option Token :=
  if (c =? 32) || (c =? 13) || (c =? 9) || (c =? 10) then None
  else if (48 <=? c) && (c <=? 57) then Some (IntegerToken (c - 48))
  else if (c =? 43) || (c =? 45) || (c =? 42) || (c =? 47)
       then Some (OperatorToken (string_of_byte c))
  else None.

(** The tokenizer's output, as a plain function of the input. *)
Definition tokens_of (input : string) : TokenArray :=
  omap token_of_byte (charArray input).

(** [o'] is the answer [o], unless [o] ran out of fuel. *)
Definition extends {A} (o o' : outcome A) : Prop := o = OutOfFuel \/ o' = o.

(** The run stops within its fuel and, if it returns, leaves at most [n]
    tokens. *)
Definition bounded {A} (n : nat) (o : outcome (A * Lexer)) : Prop :=
  match o with
  | Return (_, l') => (length (tokens l') <= n)%nat
  | Panic _ => True
  | OutOfFuel => False
  end.

(** The run stops within its fuel and, if it returns, has consumed at least
    one token of [l]. *)
Definition consumes {A} (l : Lexer) (o : outcome (A * Lexer)) : Prop :=
  match o with
  | Return (_, l') => (length (tokens l') < length (tokens l))%nat
  | Panic _ => True
  | OutOfFuel => False
  end.

(** Termination of one snapshot, given by its [New], [parse],
    [evalExpression] and [run]. *)
Definition always_stops
    (New : string -> outcome Lexer) (parse : nat -> Z -> M Expression)
    (evalExpression : Expression -> outcome Z) (run : string -> outcome Z) : Prop :=
  (forall input, exists l, New input = Return l)
  /\ (forall l bp (k : nat), consumes l (parse (S (length (tokens l)) + k)%nat bp l))
  /\ (forall l bp (k : nat),
        parse (S (length (tokens l)) + k)%nat bp l = parse (S (length (tokens l))) bp l)
  /\ (forall e, terminates (evalExpression e))
  /\ (forall input, terminates (run input)).

(** What calling [operationFunctionMap[op]] on two integers does. *)
Definition apply_op (op : string) (a b : Z) : outcome Z :=
  if decide (op = "+"%string) then Return (GoInt.add a b)
  else if decide (op = "-"%string) then Return (GoInt.sub a b)
  else if decide (op = "*"%string) then Return (GoInt.mul a b)
  else if decide (op = "/"%string) then GoInt.div a b
  else Panic NilDereference.

(** Parsing a token sequence from the top, as [main] does after [New]. *)
Definition parse_tokens (parse : nat -> Z -> M Expression) (ts : TokenArray)
  : outcome (Expression * Lexer) :=
  parse (S (length ts)) 0 {| tokens := reverse ts |}.

Definition lit (v : Z) : Expression := TokenExpression (IntegerToken v).

(** The evaluation of [e] by [main.go] reaches an integer division whose
    right-hand operand is 0: operands are evaluated left before right, and
    a prefix operator evaluates its operand only when it is [+] or [-]. *)
Inductive divides_by_zero : Expression -> Prop :=
  | dbz_here lhs rhs a :
      Main.evalExpression lhs = Return a ->
      Main.evalExpression rhs = Return 0 ->
      divides_by_zero (InfixExpression lhs rhs "/")
  | dbz_left lhs rhs op :
      divides_by_zero lhs -> divides_by_zero (InfixExpression lhs rhs op)
  | dbz_right lhs rhs op a :
      Main.evalExpression lhs = Return a ->
      divides_by_zero rhs ->
      divides_by_zero (InfixExpression lhs rhs op)
  | dbz_prefix op rhs :
      op = "+"%string \/ op = "-"%string ->
      divides_by_zero rhs ->
      divides_by_zero (PrefixExpression op rhs).

(** The reading of the specification: an input whose evaluation divides by
    zero ends in a failure the program itself reports. *)
Definition division_by_zero_is_reported : Prop :=
  forall input l e l',
    Main.New input = Return l ->
    Main.parse (S (length (tokens l))) 0 l = Return (e, l') ->
    divides_by_zero e ->
    explicit_failure (Main.run input).

(** The reading of the specification: when the tokenizer produces no
    token, [next] on the cursor and the run as a whole end in a failure the
    program itself reports. *)
Definition empty_input_is_reported : Prop :=
  forall input,
    tokenize input = Return [] ->
    explicit_failure (obind (Main.New input) Main.next)
    /\ explicit_failure (Main.run input).

(** The two-byte string holding U+0131 (Latin small letter dotless i),
    followed by "+2". *)
Definition dotless_i_plus_2 : string :=
  String "196"%char (String "177"%char "+2"%string).

(** An integer token holding a digit, or an operator token holding one of
    the four operator literals. *)
Definition tokenizer_token (t : Token) : Prop :=
  match t with
  | IntegerToken value => 0 <= value <= 9
  | OperatorToken literal =>
    literal = "+"%string \/ literal = "-"%string \/ literal = "*"%string \/ literal = "/"%string
  | PrefixToken _ => False
  end.

(** The tokens of an expression, read from left to right. *)
Fixpoint unparse (e : Expression) : TokenArray :=
  match e with
  | NilExpression => []
  | TokenExpression t => [t]
  | PrefixExpression op rhs => OperatorToken op :: unparse rhs
  | InfixExpression lhs rhs op => unparse lhs ++ OperatorToken op :: unparse rhs
  end.

(** The expressions [parse] builds from the tokenizer's tokens: digits under
    prefix [+] and [-] and the four infix operators. *)
Inductive well_formed : Expression -> Prop :=
  | wf_lit v : 0 <= v <= 9 -> well_formed (lit v)
  | wf_prefix op rhs :
      op = "+"%string \/ op = "-"%string ->
      well_formed rhs ->
      well_formed (PrefixExpression op rhs)
  | wf_infix lhs rhs op :
      op = "+"%string \/ op = "-"%string \/ op = "*"%string \/ op = "/"%string ->
      well_formed lhs ->
      well_formed rhs ->
      well_formed (InfixExpression lhs rhs op).

(** The entries of the two binding-power tables, by cases on the key. *)
Definition infix_powers (literal : string) : list Z :=
  if decide (literal = "+"%string) then [1; 2]
  else if decide (literal = "-"%string) then [1; 2]
  else if decide (literal = "*"%string) then [3; 4]
  else if decide (literal = "/"%string) then [3; 4]
  else [].

Definition prefix_powers (literal : string) : list Z :=
  if decide (literal = "+"%string) then [0; 5]
  else if decide (literal = "-"%string) then [0; 5]
  else [].

(** [parse] returned [e] and left the cursor [l']: the tokens it took from
    [l] are those of [e], in order, and [e] is well formed. *)
Definition accounts_for (l : Lexer) (o : outcome (Expression * Lexer)) : Prop :=
  match o with
  | Return (e, l') => well_formed e /\ tokens l = tokens l' ++ reverse (unparse e)
  | _ => True
  end.

(** Whenever [o] returns, [o'] returns the same. *)
Definition returns_as {A} (o o' : outcome A) : Prop :=
  forall r, o = Return r -> o' = Return r.

(** The panics [parse] can end in on the tokenizer's tokens. *)
Definition parse_panic (p : panic) : Prop :=
  p = NilDereference
  \/ p = IndexOutOfRange
  \/ p = Explicit "Integer should be followed by an operand".

(** A value of Go's [int]. *)
Definition in_int_range (v : Z) : Prop := GoInt.min_int <= v <= GoInt.max_int.

(** The bytes that give a token: the digits and the four operators. *)
Definition significant (c : Z) : bool :=
  between 48 57 c || (c =? 43) || (c =? 45) || (c =? 42) || (c =? 47).

(** An operand followed by operator and operand pairs: the tokens, and the
    tree that groups them to the left. *)
Definition chain_tokens (rest : list (string * Z)) : TokenArray :=
  flat_map (fun ob => [OperatorToken ob.1; IntegerToken ob.2]) rest.

Definition chain_tree (lhs : Expression) (rest : list (string * Z)) : Expression :=
  fold_left (fun acc ob => InfixExpression acc (lit ob.2) ob.1) rest lhs.

(** The cursor is exhausted, or its next token is an operator whose left
    binding power is below [bp]: a loop of [parse] run with minimum [bp]
    stops there. *)
Definition stops_at (bp : Z) (ts : TokenArray) : Prop :=
  ts = []
  \/ exists us o l_bp r_bp,
       ts = us ++ [OperatorToken o]
       /\ map_get operatorBindingPowerMap o = [l_bp; r_bp]
       /\ l_bp < bp.

(** Operator and item pairs following a first item: their tokens, and the
    tree that links them to the left of what precedes. *)
Definition link_tokens {Item} (item_tokens : Item -> TokenArray)
    (rest : list (string * Item)) : TokenArray :=
  flat_map (fun oi => OperatorToken oi.1 :: item_tokens oi.2) rest.

Definition link_tree {Item} (item_tree : Item -> Expression)
    (lhs : Expression) (rest : list (string * Item)) : Expression :=
  fold_left (fun acc oi => InfixExpression acc (item_tree oi.2) oi.1) rest lhs.

(** The recursive call [rec] with minimum [r_bp] parses the item [it] off
    the cursor and stops right after it. *)
Definition item_parsed {Item} (item_tokens : Item -> TokenArray)
    (item_tree : Item -> Expression) (rec : Z -> M Expression) (r_bp : Z)
    (it : Item) : Prop :=
  forall ts,
    stops_at r_bp ts ->
    rec r_bp {| tokens := ts ++ reverse (item_tokens it) |}
    = Return (item_tree it, {| tokens := ts |}).

(** The grammar of arithmetic: an operand is a digit under prefix
    operators, a term is operands joined by multiplicative operators, a sum
    is terms joined by additive operators. *)
Definition operand : Type := list string * Z.
Definition term : Type := operand * list (string * operand).
Definition sum : Type := term * list (string * term).

Definition operand_tokens (x : operand) : TokenArray :=
  (OperatorToken <$> x.1) ++ [IntegerToken x.2].
Definition operand_tree (x : operand) : Expression :=
  foldr PrefixExpression (lit x.2) x.1.

Definition term_tokens (t : term) : TokenArray :=
  operand_tokens t.1 ++ link_tokens operand_tokens t.2.
Definition term_tree (t : term) : Expression :=
  link_tree operand_tree (operand_tree t.1) t.2.

Definition sum_tokens (s : sum) : TokenArray :=
  term_tokens s.1 ++ link_tokens term_tokens s.2.
Definition sum_tree (s : sum) : Expression :=
  link_tree term_tree (term_tree s.1) s.2.

Definition additive (o : string) : Prop := o = "+"%string \/ o = "-"%string.
Definition multiplicative (o : string) : Prop := o = "*"%string \/ o = "/"%string.

Definition operand_ok (x : operand) : Prop := Forall additive x.1.
Definition term_ok (t : term) : Prop :=
  operand_ok t.1 /\ Forall (fun oi => multiplicative oi.1 /\ operand_ok oi.2) t.2.
Definition sum_ok (s : sum) : Prop :=
  term_ok s.1 /\ Forall (fun oi => additive oi.1 /\ term_ok oi.2) s.2.

(** The value of an expression in unbounded integer arithmetic, with
    division truncating toward zero. *)
Fixpoint exact (e : Expression) : outcome Z :=
  match e with
  | TokenExpression (IntegerToken value) => Return value
  | PrefixExpression op rhs =>
    obind (exact rhs) (fun v => Return (if String.eqb op "-" then - v else v))
  | InfixExpression lhs rhs op =>
    obind (exact lhs) (fun a =>
    obind (exact rhs) (fun b =>
    if String.eqb op "+" then Return (a + b)
    else if String.eqb op "-" then Return (a - b)
    else if String.eqb op "*" then Return (a * b)
    else if b =? 0 then Panic DivideByZero
    else Return (Z.quot a b)))
  | _ => Return 0
  end.

(** The number of integer tokens in an expression. *)
Fixpoint digits (e : Expression) : nat :=
  match e with
  | TokenExpression _ => 1
  | PrefixExpression _ rhs => digits rhs
  | InfixExpression lhs rhs _ => digits lhs + digits rhs
  | NilExpression => 0
  end.

(* ===================================================================== *)
(** * Properties *)
(* ===================================================================== *)

(** Statements about given inputs are settled by running the program on
    them. *)
Ltac by_running := repeat split; intros; vm_compute; reflexivity.

(* ===================================================================== *)
(** ** The tokenizer: what [New] computes *)
(* ===================================================================== *)

Lemma Atoi_digit (c : Z) :
  48 <= c <= 57 ->
  Atoi (string_of_byte c) = Some (c - 48) /\ int32 (c - 48) = c - 48.
Proof.
  intros H.
  assert (Hc : c = 48 \/ c = 49 \/ c = 50 \/ c = 51 \/ c = 52 \/ c = 53
               \/ c = 54 \/ c = 55 \/ c = 56 \/ c = 57) by lia.
  repeat (destruct Hc as [-> | Hc]; [split; reflexivity |]).
  subst c; split; reflexivity.
Qed.

Lemma scan_spec (cs : list Z) (acc : TokenArray) :
  scan cs acc = Return (acc ++ omap token_of_byte cs).
Proof.
  revert acc; induction cs as [| c cs IH]; intros acc; simpl.
  - by rewrite app_nil_r.
  - unfold token_of_byte.
    destruct ((c =? 32) || (c =? 13) || (c =? 9) || (c =? 10)); [apply IH |].
    destruct ((48 <=? c) && (c <=? 57)) eqn:Hd.
    + apply andb_true_iff in Hd as [H1 H2].
      destruct (Atoi_digit c) as [-> ->]; [lia |].
      rewrite IH, <- app_assoc. reflexivity.
    + destruct ((c =? 43) || (c =? 45) || (c =? 42) || (c =? 47)); [| apply IH].
      rewrite IH, <- app_assoc. reflexivity.
Qed.

Lemma tokenize_spec (input : string) : tokenize input = Return (tokens_of input).
Proof. unfold tokenize. by rewrite scan_spec. Qed.

(** *** [Reverse] *)

Lemma len_app {A} (a b : list A) : len (a ++ b) = len a + len b.
Proof. unfold len. rewrite length_app. lia. Qed.

Lemma index_middle {A} (pre post : list A) (x : A) :
  index (pre ++ x :: post) (len pre) = Return x.
Proof.
  unfold index, len.
  destruct (Z.ltb_spec (Z.of_nat (length pre)) 0); [lia |].
  rewrite Nat2Z.id, list_lookup_middle; done.
Qed.

Lemma insert_middle {A} (pre post : list A) (x y : A) :
  <[Z.to_nat (len pre) := y]> (pre ++ x :: post) = pre ++ y :: post.
Proof. unfold len. rewrite Nat2Z.id. by rewrite insert_app_r_alt, Nat.sub_diag by lia. Qed.

Lemma swap_ends (pre mid post : TokenArray) (a b : Token) :
  swap (pre ++ a :: mid ++ b :: post) (len pre) (len pre + len mid + 1)
  = Return (pre ++ b :: mid ++ a :: post).
Proof.
  unfold swap.
  rewrite index_middle. simpl.
  assert (He : len pre + len mid + 1 = len (pre ++ a :: mid)).
  { rewrite len_app. unfold len. simpl. lia. }
  rewrite He.
  replace (pre ++ a :: mid ++ b :: post) with ((pre ++ a :: mid) ++ b :: post)
    by (by rewrite <- app_assoc).
  rewrite index_middle. simpl.
  rewrite <- app_assoc. simpl.
  rewrite insert_middle.
  replace (pre ++ b :: mid ++ b :: post) with ((pre ++ b :: mid) ++ b :: post)
    by (by rewrite <- app_assoc).
  replace (len (pre ++ a :: mid)) with (len (pre ++ b :: mid))
    by (rewrite !len_app; reflexivity).
  rewrite insert_middle. by rewrite <- app_assoc.
Qed.

Lemma Reverse_loop_step (c : TokenArray) (s e : Z) :
  Reverse_loop c s e
  = if decide (e - s >= 1)
    then obind (swap c s e) (fun c' => Reverse_loop c' (s + 1) (e - 1))
    else Return c.
Proof.
  rewrite Reverse_loop_equation_1. unfold Reverse_loop_unfold_clause_1.
  destruct (Z_ge_dec (e - s) 1), (decide (e - s >= 1)); try lia; [| reflexivity].
  unfold Reverse_loop_unfold_clause_1_clause_1. destruct (swap c s e); reflexivity.
Qed.

Lemma Reverse_loop_strict_step (c : TokenArray) (s e : Z) :
  Reverse_loop_strict c s e
  = if decide (e - s > 1)
    then obind (swap c s e) (fun c' => Reverse_loop_strict c' (s + 1) (e - 1))
    else Return c.
Proof.
  rewrite Reverse_loop_strict_equation_1. unfold Reverse_loop_strict_unfold_clause_1.
  destruct (Z_gt_dec (e - s) 1), (decide (e - s > 1)); try lia; [| reflexivity].
  unfold Reverse_loop_strict_unfold_clause_1_clause_1. destruct (swap c s e); reflexivity.
Qed.

(** A list of at least two elements has a first and a last one. *)
Lemma two_ends {A} (l : list A) :
  (2 <= length l)%nat -> exists a mid b, l = a :: mid ++ [b].
Proof.
  destruct l as [| a l]; simpl; [lia |]. intros H.
  destruct (decide (l = [])) as [-> | Hne]; [simpl in H; lia |].
  destruct (exists_last Hne) as (mid & b & ->). by exists a, mid, b.
Qed.

(** The loop of [main.go] reverses the part of the slice between [s] and
    [e] and leaves the rest in place. *)
Lemma Reverse_loop_middle (n : nat) :
  forall (mid pre post : TokenArray),
    length mid = n ->
    Reverse_loop (pre ++ mid ++ post) (len pre) (len pre + len mid - 1)
    = Return (pre ++ reverse mid ++ post).
Proof.
  induction n as [n IH] using lt_wf_ind. intros mid pre post Hn.
  rewrite Reverse_loop_step.
  destruct (decide (len pre + len mid - 1 - len pre >= 1)) as [Hge | Hlt].
  - destruct (two_ends mid) as (a & mid' & b & ->); [unfold len in Hge; lia |].
    assert (He : len pre + len (a :: mid' ++ [b]) - 1 = len pre + len mid' + 1).
    { unfold len. simpl. rewrite length_app. simpl. lia. }
    rewrite He. simpl. rewrite <- !app_assoc. simpl.
    rewrite swap_ends. simpl.
    replace (pre ++ b :: mid' ++ a :: post) with ((pre ++ [b]) ++ mid' ++ (a :: post))
      by (by rewrite <- app_assoc).
    replace (len pre + 1) with (len (pre ++ [b])) by (rewrite len_app; reflexivity).
    replace (len pre + len mid' + 1 - 1) with (len (pre ++ [b]) + len mid' - 1)
      by (rewrite len_app; unfold len; simpl; lia).
    rewrite (IH (length mid')); [| simpl in Hn; rewrite length_app in Hn; simpl in Hn; lia | done].
    rewrite reverse_cons, reverse_snoc. simpl. by rewrite <- !app_assoc.
  - assert (Hs : (length mid <= 1)%nat) by (unfold len in Hlt; lia).
    destruct mid as [| a [| b mid]]; simpl in Hs; try lia; reflexivity.
Qed.

Lemma Main_Reverse_spec (c : TokenArray) : Main.Reverse c = Return (reverse c).
Proof.
  unfold Main.Reverse.
  pose proof (Reverse_loop_middle (length c) c [] [] eq_refl) as H.
  simpl in H. rewrite !app_nil_r in H. exact H.
Qed.

Lemma Main_New_spec (input : string) :
  Main.New input = Return {| tokens := reverse (tokens_of input) |}.
Proof. unfold Main.New. rewrite tokenize_spec. simpl. by rewrite Main_Reverse_spec. Qed.

(** The loop of [part_001] stops one exchange early when the part between
    [s] and [e] has an even number of elements: the result is a permutation
    of the slice, and its reverse when that number is odd. *)
Lemma Reverse_loop_strict_middle (n : nat) :
  forall (mid pre post : TokenArray),
    length mid = n ->
    exists mid',
      Reverse_loop_strict (pre ++ mid ++ post) (len pre) (len pre + len mid - 1)
      = Return (pre ++ mid' ++ post)
      /\ mid' ≡ₚ mid
      /\ (Nat.odd (length mid) = true -> mid' = reverse mid).
Proof.
  induction n as [n IH] using lt_wf_ind. intros mid pre post Hn.
  rewrite Reverse_loop_strict_step.
  destruct (decide (len pre + len mid - 1 - len pre > 1)) as [Hge | Hlt].
  - destruct (two_ends mid) as (a & mid1 & b & ->); [unfold len in Hge; lia |].
    assert (He : len pre + len (a :: mid1 ++ [b]) - 1 = len pre + len mid1 + 1).
    { unfold len. simpl. rewrite length_app. simpl. lia. }
    rewrite He. simpl. rewrite <- !app_assoc. simpl.
    rewrite swap_ends. simpl.
    replace (pre ++ b :: mid1 ++ a :: post) with ((pre ++ [b]) ++ mid1 ++ (a :: post))
      by (by rewrite <- app_assoc).
    replace (len pre + 1) with (len (pre ++ [b])) by (rewrite len_app; reflexivity).
    replace (len pre + len mid1 + 1 - 1) with (len (pre ++ [b]) + len mid1 - 1)
      by (rewrite len_app; unfold len; simpl; lia).
    simpl in Hn. rewrite length_app in Hn. simpl in Hn.
    destruct (IH (length mid1) ltac:(lia) mid1 (pre ++ [b]) (a :: post) eq_refl)
      as (mid2 & -> & Hperm & Hodd).
    exists (b :: mid2 ++ [a]). split; [| split].
    + rewrite <- !app_assoc. simpl. by rewrite <- !app_assoc.
    + rewrite Hperm.
      rewrite (Permutation_app_comm mid1 [b]). simpl.
      rewrite (Permutation_app_comm mid1 [a]). simpl. apply perm_swap.
    + intros Ho. rewrite reverse_cons, reverse_snoc. simpl.
      rewrite Hodd; [done |].
      rewrite length_app in Ho. simpl in Ho.
      replace (S (length mid1 + 1)) with (S (S (length mid1))) in Ho by lia.
      by rewrite Nat.odd_succ_succ in Ho.
  - exists mid. split; [done | split; [done |]].
    assert (Hs : (length mid <= 2)%nat) by (unfold len in Hlt; lia).
    destruct mid as [| a [| b [| c mid]]]; simpl in Hs; try lia; try done.
Qed.

Lemma Part001_Reverse_spec (c : TokenArray) :
  exists c', Part001.Reverse c = Return c'
             /\ c' ≡ₚ c
             /\ (Nat.odd (length c) = true -> c' = reverse c).
Proof.
  unfold Part001.Reverse.
  destruct (Reverse_loop_strict_middle (length c) c [] [] eq_refl) as (c' & H & Hp & Ho).
  simpl in H. rewrite !app_nil_r in H. by exists c'.
Qed.

Lemma Part001_New_spec (input : string) :
  exists c', Part001.New input = Return {| tokens := c' |}
             /\ c' ≡ₚ tokens_of input
             /\ (Nat.odd (length (tokens_of input)) = true -> c' = reverse (tokens_of input)).
Proof.
  unfold Part001.New. rewrite tokenize_spec. simpl.
  destruct (Part001_Reverse_spec (tokens_of input)) as (c' & -> & Hp & Ho).
  by exists c'.
Qed.

(* ===================================================================== *)
(** ** The cursor on a non-empty and on an empty sequence *)
(* ===================================================================== *)

Lemma index_last {A} (ts : list A) (t : A) : index (ts ++ [t]) (len (ts ++ [t]) - 1) = Return t.
Proof.
  replace (len (ts ++ [t]) - 1) with (len ts) by (rewrite len_app; unfold len; simpl; lia).
  apply index_middle.
Qed.

Lemma peek_snoc (ts : TokenArray) (t : Token) :
  peek {| tokens := ts ++ [t] |} = Return (Some t, {| tokens := ts ++ [t] |}).
Proof.
  unfold peek. simpl.
  destruct (Z.ltb_spec (len (ts ++ [t])) 1) as [H | H].
  - rewrite len_app in H. unfold len in H. simpl in H. lia.
  - by rewrite index_last.
Qed.

Lemma peek_nil : peek {| tokens := [] |} = Return (None, {| tokens := [] |}).
Proof. reflexivity. Qed.

Lemma pop_snoc (ts : TokenArray) (t : Token) :
  pop {| tokens := ts ++ [t] |} = Return (Some t, {| tokens := ts |}).
Proof.
  unfold pop. simpl. rewrite index_last. simpl.
  replace (Z.to_nat (len (ts ++ [t]) - 1)) with (length ts)
    by (rewrite len_app; unfold len; simpl; lia).
  by rewrite take_app_length.
Qed.

Lemma Main_next_snoc (ts : TokenArray) (t : Token) :
  Main.next {| tokens := ts ++ [t] |} = Return (Some t, {| tokens := ts |}).
Proof.
  unfold Main.next. simpl.
  destruct (Z.eqb_spec (len (ts ++ [t])) 0) as [H | H].
  - rewrite len_app in H. unfold len in H. simpl in H. lia.
  - apply pop_snoc.
Qed.

Lemma Main_next_nil : Main.next {| tokens := [] |} = Return (None, {| tokens := [] |}).
Proof. reflexivity. Qed.

Lemma Part001_next_snoc (ts : TokenArray) (t : Token) :
  Part001.next {| tokens := ts ++ [t] |} = Return (Some t, {| tokens := ts |}).
Proof.
  unfold Part001.next. simpl.
  destruct (Z.eqb_spec (len (ts ++ [t])) 0) as [H | H].
  - rewrite len_app in H. unfold len in H. simpl in H. lia.
  - apply pop_snoc.
Qed.

Lemma Part001_next_nil :
  Part001.next {| tokens := [] |} = Panic (Explicit "Error: tokens empty").
Proof. reflexivity. Qed.

(** A cursor built on the reversed sequence hands the tokens out in their
    original order. *)
Lemma deliver_reverse (next : M (option Token)) (ts : TokenArray) :
  (forall us u, next {| tokens := us ++ [u] |} = Return (Some u, {| tokens := us |})) ->
  deliver next (length ts) {| tokens := reverse ts |}
  = Return (Some <$> ts, {| tokens := [] |}).
Proof.
  intros Hnext. induction ts as [| t ts IH]; [reflexivity |].
  simpl. unfold bind. rewrite reverse_cons, Hnext.
  fold (deliver next). rewrite IH. reflexivity.
Qed.

(* ===================================================================== *)
(** ** Termination of [parse] *)
(* ===================================================================== *)

Lemma bounded_mono {A} (n n' : nat) (o : outcome (A * Lexer)) :
  (n <= n')%nat -> bounded n o -> bounded n' o.
Proof. destruct o as [[a l] | |]; simpl; [lia | done | done]. Qed.

Lemma consumes_bounded {A} (l : Lexer) (o : outcome (A * Lexer)) :
  consumes l o -> bounded (length (tokens l)) o.
Proof. destruct o as [[a l'] | |]; simpl; [lia | done | done]. Qed.

Lemma bounded_consumes {A} (ts : TokenArray) (t : Token) (o : outcome (A * Lexer)) :
  bounded (length ts) o -> consumes {| tokens := ts ++ [t] |} o.
Proof. destruct o as [[a l'] | |]; simpl; [rewrite length_app; simpl; lia | done | done]. Qed.

Lemma bounded_bind {A B} (m : M A) (k : A -> M B) (l : Lexer) (n n' : nat) :
  bounded n (m l) ->
  (forall a l', (length (tokens l') <= n)%nat -> bounded n' (k a l')) ->
  bounded n' (bind m k l).
Proof.
  unfold bind. destruct (m l) as [[a l'] | |]; simpl; [| done | done].
  intros H Hk. by apply Hk.
Qed.

Lemma bounded_ret {A} (a : A) (l : Lexer) (n : nat) :
  (length (tokens l) <= n)%nat -> bounded n (ret a l).
Proof. done. Qed.

Lemma bounded_throw {A} (p : panic) (l : Lexer) (n : nat) : bounded (A := A) n (throw p l).
Proof. done. Qed.

Lemma bounded_lift {A} (o : outcome A) (l : Lexer) (n : nat) :
  o <> OutOfFuel -> (length (tokens l) <= n)%nat -> bounded n (lift o l).
Proof. unfold lift. destruct o; simpl; done. Qed.

Lemma index_terminates {A} (a : list A) (i : Z) : index a i <> OutOfFuel.
Proof. unfold index. destruct (i <? 0); [done |]. by destruct (a !! Z.to_nat i). Qed.

Lemma snoc_cases {A} (ts : list A) : ts = [] \/ exists us u, ts = us ++ [u].
Proof.
  destruct (decide (ts = [])) as [-> | Hne]; [by left | right].
  destruct (exists_last Hne) as (us & u & ->). by exists us, u.
Qed.

Lemma peek_bounded (l : Lexer) : bounded (length (tokens l)) (peek l).
Proof.
  destruct l as [ts]. destruct (snoc_cases ts) as [-> | (us & u & ->)].
  - rewrite peek_nil. simpl. lia.
  - rewrite peek_snoc. simpl. lia.
Qed.

Lemma Main_next_bounded (l : Lexer) : bounded (length (tokens l)) (Main.next l).
Proof.
  destruct l as [ts]. destruct (snoc_cases ts) as [-> | (us & u & ->)].
  - rewrite Main_next_nil. simpl. lia.
  - rewrite Main_next_snoc. simpl. rewrite length_app. lia.
Qed.

Section LoopTerminates.
Variable next : M (option Token).
Variable rec : Z -> M Expression.
Variable d : nat.
Hypothesis Hnext :
  forall us u, next {| tokens := us ++ [u] |} = Return (Some u, {| tokens := us |}).
Hypothesis Hrec :
  forall bp l, (length (tokens l) < d)%nat -> consumes l (rec bp l).

(** Every iteration that goes on removes the operator; so a loop entered
    with more iterations than tokens stops before they are used up. *)
Lemma parse_loop_bounded (iters : nat) :
  forall min_bp lhs l,
    (length (tokens l) < iters)%nat ->
    (length (tokens l) <= d)%nat ->
    bounded (length (tokens l)) (parse_loop next rec iters min_bp lhs l).
Proof.
  induction iters as [| iters IH]; intros min_bp lhs [ts] Hi Hd; simpl in *; [lia |].
  destruct (snoc_cases ts) as [-> | (us & u & ->)].
  - unfold bind. rewrite peek_nil. simpl. lia.
  - unfold bind at 1. rewrite peek_snoc.
    rewrite length_app in *. simpl in *.
    destruct u as [v | literal | literal]; [done | | done].
    unfold bind at 1. unfold lift at 1.
    destruct (index (map_get operatorBindingPowerMap literal) 0) as [l_bp | p |] eqn:E0;
      simpl; [| done | by apply index_terminates in E0].
    unfold bind at 1. unfold lift at 1.
    destruct (index (map_get operatorBindingPowerMap literal) 1) as [r_bp | p |] eqn:E1;
      simpl; [| done | by apply index_terminates in E1].
    destruct (l_bp <? min_bp); [simpl; rewrite length_app; simpl; lia |].
    unfold bind at 1. rewrite Hnext.
    unfold bind at 1.
    pose proof (Hrec r_bp {| tokens := us |} ltac:(simpl; lia)) as Hr.
    destruct (rec r_bp {| tokens := us |}) as [[rhs l'] | p |]; simpl in Hr; [| done | done].
    eapply bounded_mono; [| apply IH; lia]. lia.
Qed.
End LoopTerminates.

(** [parse] of [main.go]: with more depth than tokens it stops, and when it
    returns it has consumed at least one token. *)
Lemma Main_parse_consumes (d : nat) :
  forall bp l, (length (tokens l) < d)%nat -> consumes l (Main.parse d bp l).
Proof.
  induction d as [| d IH]; intros bp [ts] Hlen; simpl in Hlen; [lia |].
  assert (Hloop : forall min_bp lhs l, (length (tokens l) <= d)%nat ->
            bounded (length (tokens l)) (parse_rest Main.next (Main.parse d) min_bp lhs l)).
  { intros min_bp lhs l Hl. unfold parse_rest.
    apply (parse_loop_bounded Main.next (Main.parse d) d Main_next_snoc IH); lia. }
  destruct (snoc_cases ts) as [-> | (us & u & ->)]; [done |].
  rewrite length_app in Hlen. simpl in Hlen.
  apply bounded_consumes.
  cbn [Main.parse]. unfold Main.parse_call. unfold bind at 1. rewrite Main_next_snoc.
  destruct u as [v | literal | literal].
  - apply (Hloop bp _ {| tokens := us |}). simpl. lia.
  - eapply (bounded_bind _ _ _ (length us)).
    { destruct (String.eqb literal "("); [| apply bounded_ret; simpl; lia].
      eapply bounded_bind; [apply Main_next_bounded |]. intros _ l1 Hl1. simpl in Hl1.
      eapply bounded_bind.
      { apply consumes_bounded, IH. lia. }
      intros expr l2 Hl2.
      eapply bounded_bind; [apply peek_bounded |]. intros closing l3 Hl3.
      destruct closing as [t |]; [| done].
      destruct (String.eqb (getExpressionValue t) ")"); [apply bounded_ret; lia | done]. }
    intros _ l1 Hl1.
    eapply bounded_bind.
    { apply bounded_lift; [apply index_terminates | reflexivity]. }
    intros r_bp l2 Hl2.
    eapply bounded_bind.
    { apply consumes_bounded, IH. lia. }
    intros rhs l3 Hl3.
    eapply bounded_mono; [| apply Hloop; lia]. lia.
  - apply (Hloop bp _ {| tokens := us |}). simpl. lia.
Qed.

Lemma Part000_parse_consumes (d : nat) :
  forall bp l, (length (tokens l) < d)%nat -> consumes l (Part000.parse d bp l).
Proof.
  induction d as [| d IH]; intros bp [ts] Hlen; simpl in Hlen; [lia |].
  assert (Hloop : forall min_bp lhs l, (length (tokens l) <= d)%nat ->
            bounded (length (tokens l))
              (parse_rest Part000.next (Part000.parse d) min_bp lhs l)).
  { intros min_bp lhs l Hl. unfold parse_rest.
    apply (parse_loop_bounded Part000.next (Part000.parse d) d Main_next_snoc IH); lia. }
  destruct (snoc_cases ts) as [-> | (us & u & ->)]; [done |].
  rewrite length_app in Hlen. simpl in Hlen.
  apply bounded_consumes.
  cbn [Part000.parse]. unfold Part000.parse_call. unfold bind at 1. unfold Part000.next at 1. rewrite Main_next_snoc.
  destruct u as [v | literal | literal].
  - apply (Hloop bp _ {| tokens := us |}). simpl. lia.
  - eapply bounded_bind.
    { apply bounded_lift; [apply index_terminates | reflexivity]. }
    intros r_bp l2 Hl2. simpl in Hl2.
    eapply bounded_bind.
    { apply consumes_bounded, IH. lia. }
    intros rhs l3 Hl3.
    eapply bounded_mono; [| apply Hloop; lia]. lia.
  - apply (Hloop bp _ {| tokens := us |}). simpl. lia.
Qed.

Lemma Part001_parse_consumes (d : nat) :
  forall bp l, (length (tokens l) < d)%nat -> consumes l (Part001.parse d bp l).
Proof.
  induction d as [| d IH]; intros bp [ts] Hlen; simpl in Hlen; [lia |].
  destruct (snoc_cases ts) as [-> | (us & u & ->)]; [done |].
  rewrite length_app in Hlen. simpl in Hlen.
  apply bounded_consumes.
  cbn [Part001.parse]. unfold Part001.parse_call. unfold bind at 1. rewrite Part001_next_snoc.
  destruct u as [v | literal | literal]; [| done | done].
  unfold parse_rest.
  apply (parse_loop_bounded Part001.next (Part001.parse d) d Part001_next_snoc IH
           _ _ _ {| tokens := us |}); simpl; lia.
Qed.

(* ===================================================================== *)
(** ** The depth bound does not change the answer *)
(* ===================================================================== *)

Lemma extends_refl {A} (o : outcome A) : extends o o.
Proof. by right. Qed.

Lemma extends_trans {A} (o1 o2 o3 : outcome A) :
  extends o1 o2 -> extends o2 o3 -> extends o1 o3.
Proof. intros [-> | ->]; [by left |]. done. Qed.

Lemma extends_eq {A} (o o' : outcome A) : extends o o' -> o <> OutOfFuel -> o' = o.
Proof. by intros [-> | ->]. Qed.

Lemma extends_bind {A B} (m m' : M A) (k k' : A -> M B) (l : Lexer) :
  extends (m l) (m' l) ->
  (forall a l', extends (k a l') (k' a l')) ->
  extends (bind m k l) (bind m' k' l).
Proof.
  unfold bind. intros [-> | ->] Hk; [by left |].
  destruct (m l) as [[a l'] | p |]; [apply Hk | by right | by right].
Qed.

Section LoopExtends.
Variable next : M (option Token).
Variables rec rec' : Z -> M Expression.
Hypothesis Hrec : forall bp l, extends (rec bp l) (rec' bp l).

Lemma parse_loop_extends (iters : nat) :
  forall min_bp lhs l,
    extends (parse_loop next rec iters min_bp lhs l)
            (parse_loop next rec' iters min_bp lhs l).
Proof.
  induction iters as [| iters IH]; intros min_bp lhs l; simpl; [by left |].
  apply extends_bind; [apply extends_refl |].
  intros [[v | literal | literal] |] l1; try apply extends_refl.
  apply extends_bind; [apply extends_refl |]. intros l_bp l2.
  apply extends_bind; [apply extends_refl |]. intros r_bp l3.
  destruct (l_bp <? min_bp); [apply extends_refl |].
  apply extends_bind; [apply extends_refl |]. intros _ l4.
  apply extends_bind; [apply Hrec |]. intros rhs l5.
  apply IH.
Qed.

Lemma parse_rest_extends (min_bp : Z) (lhs : Expression) (l : Lexer) :
  extends (parse_rest next rec min_bp lhs l) (parse_rest next rec' min_bp lhs l).
Proof. apply parse_loop_extends. Qed.
End LoopExtends.

Lemma Main_parse_call_extends (rec rec' : Z -> M Expression) :
  (forall bp l, extends (rec bp l) (rec' bp l)) ->
  forall bp l, extends (Main.parse_call rec bp l) (Main.parse_call rec' bp l).
Proof.
  intros Hrec bp l. unfold Main.parse_call.
  apply extends_bind; [apply extends_refl |].
  intros [[v | literal | literal] |] l1; try apply extends_refl;
    try (by apply parse_rest_extends).
  apply extends_bind.
  - destruct (String.eqb literal "("); [| apply extends_refl].
    apply extends_bind; [apply extends_refl |]. intros _ l2.
    apply extends_bind; [apply Hrec |]. intros expr l3.
    apply extends_refl.
  - intros _ l2.
    apply extends_bind; [apply extends_refl |]. intros r_bp l3.
    apply extends_bind; [apply Hrec |]. intros rhs l4.
    by apply parse_rest_extends.
Qed.

Lemma Part000_parse_call_extends (rec rec' : Z -> M Expression) :
  (forall bp l, extends (rec bp l) (rec' bp l)) ->
  forall bp l, extends (Part000.parse_call rec bp l) (Part000.parse_call rec' bp l).
Proof.
  intros Hrec bp l. unfold Part000.parse_call.
  apply extends_bind; [apply extends_refl |].
  intros [[v | literal | literal] |] l1; try apply extends_refl;
    try (by apply parse_rest_extends).
  apply extends_bind; [apply extends_refl |]. intros r_bp l3.
  apply extends_bind; [apply Hrec |]. intros rhs l4.
  by apply parse_rest_extends.
Qed.

Lemma Part001_parse_call_extends (rec rec' : Z -> M Expression) :
  (forall bp l, extends (rec bp l) (rec' bp l)) ->
  forall bp l, extends (Part001.parse_call rec bp l) (Part001.parse_call rec' bp l).
Proof.
  intros Hrec bp l. unfold Part001.parse_call.
  apply extends_bind; [apply extends_refl |].
  intros [[v | literal | literal] |] l1; try apply extends_refl.
  by apply parse_rest_extends.
Qed.

(** A parse that stops within depth [d] gives the same answer at every
    greater depth. *)
Lemma deeper_extends (parse_call : (Z -> M Expression) -> Z -> M Expression)
    (parse : nat -> Z -> M Expression) :
  (forall bp l, parse 0%nat bp l = OutOfFuel) ->
  (forall d bp l, parse (S d) bp l = parse_call (parse d) bp l) ->
  (forall rec rec', (forall bp l, extends (rec bp l) (rec' bp l)) ->
     forall bp l, extends (parse_call rec bp l) (parse_call rec' bp l)) ->
  forall d k bp l, extends (parse d bp l) (parse (d + k)%nat bp l).
Proof.
  intros H0 HS Hcall.
  assert (Hstep : forall d bp l, extends (parse d bp l) (parse (S d) bp l)).
  { induction d as [| d IH]; intros bp l; [left; apply H0 |].
    rewrite !HS. by apply Hcall. }
  intros d k. induction k as [| k IH]; intros bp l.
  - rewrite Nat.add_0_r. apply extends_refl.
  - eapply extends_trans; [apply IH |].
    replace (d + S k)%nat with (S (d + k)) by lia. apply Hstep.
Qed.

Lemma Main_parse_depth (l : Lexer) (bp : Z) (k : nat) :
  Main.parse (S (length (tokens l)) + k) bp l = Main.parse (S (length (tokens l))) bp l.
Proof.
  apply extends_eq.
  - apply (deeper_extends Main.parse_call Main.parse); try done.
    apply Main_parse_call_extends.
  - pose proof (Main_parse_consumes (S (length (tokens l))) bp l ltac:(lia)) as H.
    intros E. by rewrite E in H.
Qed.

Lemma Part000_parse_depth (l : Lexer) (bp : Z) (k : nat) :
  Part000.parse (S (length (tokens l)) + k) bp l
  = Part000.parse (S (length (tokens l))) bp l.
Proof.
  apply extends_eq.
  - apply (deeper_extends Part000.parse_call Part000.parse); try done.
    apply Part000_parse_call_extends.
  - pose proof (Part000_parse_consumes (S (length (tokens l))) bp l ltac:(lia)) as H.
    intros E. by rewrite E in H.
Qed.

Lemma Part001_parse_depth (l : Lexer) (bp : Z) (k : nat) :
  Part001.parse (S (length (tokens l)) + k) bp l
  = Part001.parse (S (length (tokens l))) bp l.
Proof.
  apply extends_eq.
  - apply (deeper_extends Part001.parse_call Part001.parse); try done.
    apply Part001_parse_call_extends.
  - pose proof (Part001_parse_consumes (S (length (tokens l))) bp l ltac:(lia)) as H.
    intros E. by rewrite E in H.
Qed.

(* ===================================================================== *)
(** ** The evaluator *)
(* ===================================================================== *)

Lemma call_operation (op : string) (a b : Z) :
  call (operationFunctionMap !! op) a b = apply_op op a b.
Proof.
  unfold operationFunctionMap, apply_op.
  repeat case_decide; simplify_map_eq; reflexivity.
Qed.

Lemma Part001_call_operation (op : string) (a b : Z) :
  call (Part001.operationFunctionMap !! op) a b = apply_op op a b.
Proof.
  unfold Part001.operationFunctionMap, apply_op.
  repeat case_decide; simplify_map_eq; reflexivity.
Qed.

Lemma apply_op_terminates (op : string) (a b : Z) : apply_op op a b <> OutOfFuel.
Proof.
  unfold apply_op, GoInt.div. repeat case_decide; try done. by destruct (b =? 0).
Qed.

Lemma Main_evalExpression_terminates (e : Expression) :
  Main.evalExpression e <> OutOfFuel.
Proof.
  induction e as [| t | op rhs IH | lhs IHl rhs IHr op]; simpl.
  - done.
  - by destruct t.
  - unfold evalPrefix.
    destruct (String.eqb op "+"); [by destruct (Main.evalExpression rhs) |].
    destruct (String.eqb op "-"); [by destruct (Main.evalExpression rhs) | done].
  - destruct (Main.evalExpression lhs); simpl; try done.
    destruct (Main.evalExpression rhs); simpl; try done.
    rewrite call_operation. apply apply_op_terminates.
Qed.

Lemma Part000_evalExpression_terminates (e : Expression) :
  Part000.evalExpression e <> OutOfFuel.
Proof.
  induction e as [| t | op rhs IH | lhs IHl rhs IHr op]; simpl.
  - done.
  - by destruct t.
  - unfold evalPrefix.
    destruct (String.eqb op "+"); [by destruct (Part000.evalExpression rhs) |].
    destruct (String.eqb op "-"); [by destruct (Part000.evalExpression rhs) | done].
  - destruct (Part000.evalExpression lhs); simpl; try done.
    destruct (Part000.evalExpression rhs); simpl; try done.
    rewrite call_operation. apply apply_op_terminates.
Qed.

Lemma Part001_evalExpression_terminates (e : Expression) :
  Part001.evalExpression e <> OutOfFuel.
Proof.
  induction e as [| t | op rhs IH | lhs IHl rhs IHr op]; simpl.
  - done.
  - by destruct t.
  - done.
  - destruct (Part001.evalExpression lhs); simpl; try done.
    destruct (Part001.evalExpression rhs); simpl; try done.
    rewrite Part001_call_operation. apply apply_op_terminates.
Qed.

(* ===================================================================== *)
(** ** Precedence and associativity *)
(* ===================================================================== *)

(** C1: the input "2-1-1" parses to the left-nested tree ((2 - 1) - 1) and
    evaluates to 0, in [main.go] as in [part_000] and [part_001]. *)
Theorem left_associative_subtraction :
  Main.run "2-1-1" = Return 0
  /\ Part000.run "2-1-1" = Return 0
  /\ Part001.run "2-1-1" = Return 0
  /\ tokenize "2-1-1"
     = Return [IntegerToken 2; OperatorToken "-"; IntegerToken 1;
               OperatorToken "-"; IntegerToken 1]
  /\ obind (Main.New "2-1-1") (Main.parse 6 0)
     = Return (InfixExpression (InfixExpression (lit 2) (lit 1) "-") (lit 1) "-",
               {| tokens := [] |})
  /\ obind (Part001.New "2-1-1") (Part001.parse 6 0)
     = Return (InfixExpression (InfixExpression (lit 2) (lit 1) "-") (lit 1) "-",
               {| tokens := [] |}).
Proof. by_running. Qed.

(** Operators of one precedence level group to the left, whatever the
    operands. *)
Lemma same_level_groups_left (a b c : Z) :
  Forall (fun level : list string =>
    Forall (fun o1 => Forall (fun o2 =>
      parse_tokens Main.parse
        [IntegerToken a; OperatorToken o1; IntegerToken b; OperatorToken o2; IntegerToken c]
      = Return (InfixExpression (InfixExpression (lit a) (lit b) o1) (lit c) o2,
                {| tokens := [] |})) level) level)
    [["+"; "-"]; ["*"; "/"]]%string.
Proof. repeat constructor. Qed.

(** C2: "1+2*3" and "2*3+1" both evaluate to 7: the multiplication, of
    binding powers (3,4), is a subtree of the addition, of binding powers
    (1,2), on whichever side it stands, and this for any operands. *)
Theorem multiplication_binds_tighter :
  Main.run "1+2*3" = Return 7
  /\ Main.run "2*3+1" = Return 7
  /\ obind (Main.New "1+2*3") (Main.parse 6 0)
     = Return (InfixExpression (lit 1) (InfixExpression (lit 2) (lit 3) "*") "+",
               {| tokens := [] |})
  /\ obind (Main.New "2*3+1") (Main.parse 6 0)
     = Return (InfixExpression (InfixExpression (lit 2) (lit 3) "*") (lit 1) "+",
               {| tokens := [] |})
  /\ map_get operatorBindingPowerMap "*" = [3; 4]
  /\ map_get operatorBindingPowerMap "+" = [1; 2]
  /\ (forall a b c : Z,
        parse_tokens Main.parse
          [IntegerToken a; OperatorToken "+"; IntegerToken b; OperatorToken "*"; IntegerToken c]
        = Return (InfixExpression (lit a) (InfixExpression (lit b) (lit c) "*") "+",
                  {| tokens := [] |}))
  /\ (forall a b c : Z,
        parse_tokens Main.parse
          [IntegerToken a; OperatorToken "*"; IntegerToken b; OperatorToken "+"; IntegerToken c]
        = Return (InfixExpression (InfixExpression (lit a) (lit b) "*") (lit c) "+",
                  {| tokens := [] |})).
Proof. by_running. Qed.

(** C6: "-3+5" parses to ((-3) + 5) and evaluates to 2.  The operand of a
    prefix [+] or [-] is parsed with minimum binding power 5, above the left
    binding power of every infix operator, so for any operands and any
    infix operator the prefix expression is the left operand. *)
Theorem prefix_binds_tightest :
  Main.run "-3+5" = Return 2
  /\ obind (Main.New "-3+5") (Main.parse 5 0)
     = Return (InfixExpression (PrefixExpression "-" (lit 3)) (lit 5) "+",
               {| tokens := [] |})
  /\ index (map_get prefixBindingPowerMap "+") 1 = Return 5
  /\ index (map_get prefixBindingPowerMap "-") 1 = Return 5
  /\ map_Forall (fun _ powers => exists l_bp, index powers 0 = Return l_bp /\ l_bp < 5)
       operatorBindingPowerMap
  /\ forall a b : Z,
       Forall (fun p => Forall (fun o =>
         parse_tokens Main.parse
           [OperatorToken p; IntegerToken a; OperatorToken o; IntegerToken b]
         = Return (InfixExpression (PrefixExpression p (lit a)) (lit b) o,
                   {| tokens := [] |}))
         ["+"; "-"; "*"; "/"]) ["+"; "-"]%string.
Proof.
  split; [vm_compute; reflexivity |].
  split; [vm_compute; reflexivity |].
  split; [vm_compute; reflexivity |].
  split; [vm_compute; reflexivity |].
  split.
  - unfold operatorBindingPowerMap.
    repeat (apply map_Forall_insert_2; [eexists; split; [reflexivity | lia] |]).
    apply map_Forall_empty.
  - intros a b. repeat constructor.
Qed.

(* ===================================================================== *)
(** ** Division by zero *)
(* ===================================================================== *)

Lemma evaluation_reaching_zero_division (e : Expression) :
  divides_by_zero e -> Main.evalExpression e = Panic DivideByZero.
Proof.
  induction 1 as [lhs rhs a Hl Hr | lhs rhs op _ IH | lhs rhs op a Hl _ IH
                  | op rhs Hop _ IH]; simpl.
  - rewrite Hl, Hr. reflexivity.
  - rewrite IH. reflexivity.
  - rewrite Hl, IH. reflexivity.
  - unfold evalPrefix. destruct Hop as [-> | ->]; simpl; rewrite IH; reflexivity.
Qed.

(** Conversely the divide-by-zero panic has no other source. *)
Lemma zero_division_only_from_dividing (e : Expression) :
  Main.evalExpression e = Panic DivideByZero -> divides_by_zero e.
Proof.
  induction e as [| t | op rhs IH | lhs IHl rhs IHr op]; simpl.
  - done.
  - by destruct t.
  - unfold evalPrefix.
    destruct (String.eqb_spec op "+") as [-> | _].
    { destruct (Main.evalExpression rhs); simpl; try done.
      intros [= ->]. apply dbz_prefix; auto. }
    destruct (String.eqb_spec op "-") as [-> | _]; [| done].
    destruct (Main.evalExpression rhs); simpl; try done.
    intros [= ->]. apply dbz_prefix; auto.
  - destruct (Main.evalExpression lhs) as [a | p |] eqn:El; simpl; [| | done].
    + destruct (Main.evalExpression rhs) as [b | p |] eqn:Er; simpl; [| | done].
      * rewrite call_operation. unfold apply_op, GoInt.div.
        repeat case_decide; try done. subst op.
        destruct (Z.eqb_spec b 0) as [-> | _]; [| done].
        intros _. by apply dbz_here with a.
      * intros [= ->]. apply dbz_right with a; auto.
    + intros [= ->]. apply dbz_left; auto.
Qed.

(** C3 (as the code has it): an expression whose evaluation reaches a
    division by zero makes [evalExpression] stop with the runtime's
    divide-by-zero panic; no value is returned and the stop is not one the
    program reports itself. *)
Theorem division_by_zero_is_a_runtime_panic (e : Expression) :
  divides_by_zero e ->
  Main.evalExpression e = Panic DivideByZero
  /\ runtime_crash (Main.evalExpression e)
  /\ ~ explicit_failure (Main.evalExpression e).
Proof.
  intros H. rewrite (evaluation_reaching_zero_division e H).
  split; [reflexivity | split].
  - right; right; reflexivity.
  - intros [msg Hmsg]. discriminate.
Qed.

Lemma division_by_zero_is_a_runtime_panic_witness :
  divides_by_zero (InfixExpression (lit 5) (lit 0) "/")
  /\ Main.evalExpression (InfixExpression (lit 5) (lit 0) "/") = Panic DivideByZero.
Proof.
  assert (H : divides_by_zero (InfixExpression (lit 5) (lit 0) "/"))
    by (apply dbz_here with 5; reflexivity).
  split; [exact H |].
  exact (proj1 (division_by_zero_is_a_runtime_panic _ H)).
Defined.

(** C3 (as the specification states it) fails on "5/0": the process ends in
    the runtime panic. *)
Lemma five_by_zero_is_not_reported : ~ division_by_zero_is_reported.
Proof.
  intros H.
  destruct (H "5/0"%string {| tokens := [IntegerToken 0; OperatorToken "/"; IntegerToken 5] |}
              (InfixExpression (lit 5) (lit 0) "/") {| tokens := [] |})
    as [msg Hmsg].
  - vm_compute. reflexivity.
  - vm_compute. reflexivity.
  - apply dbz_here with 5; reflexivity.
  - vm_compute in Hmsg. discriminate.
Qed.

(** The same input in the earliest snapshot, and the whole process. *)
Lemma five_by_zero_everywhere :
  Main.main ("5/0" ++ newline) = Panic DivideByZero
  /\ Part000.main ("5/0" ++ newline) = Panic DivideByZero
  /\ Part001.main ("5/0" ++ newline) = Panic DivideByZero.
Proof. by_running. Qed.

Lemma Part001_division_by_zero (lhs rhs : Expression) (a : Z) :
  Part001.evalExpression lhs = Return a ->
  Part001.evalExpression rhs = Return 0 ->
  Part001.evalExpression (InfixExpression lhs rhs "/") = Panic DivideByZero.
Proof. intros Hl Hr. simpl. rewrite Hl, Hr. reflexivity. Qed.

(* ===================================================================== *)
(** ** Empty input and the exhausted cursor *)
(* ===================================================================== *)

Lemma whitespace_byte_no_token (c : Z) :
  c = 32 \/ c = 13 \/ c = 9 \/ c = 10 -> token_of_byte c = None.
Proof. intros [-> | [-> | [-> | ->]]]; reflexivity. Qed.

Lemma range_runes_ascii (bs : list Z) :
  Forall (fun b => b < 128) bs -> range_runes bs = bs.
Proof.
  induction 1 as [| b bs Hb _ IH]; [reflexivity |].
  simpl. destruct (Z.ltb_spec b 128); [by rewrite IH | lia].
Qed.

(** An input made of spaces, tabs, carriage returns and newlines only gives
    no token. *)
Lemma whitespace_only_no_tokens (input : string) :
  Forall (fun c => c = 32 \/ c = 13 \/ c = 9 \/ c = 10) (bytes_of_string input) ->
  tokenize input = Return [].
Proof.
  intros H. rewrite tokenize_spec. f_equal.
  unfold tokens_of, charArray.
  rewrite range_runes_ascii by (eapply Forall_impl; [exact H | simpl; lia]).
  induction H as [| c cs Hc _ IH]; [reflexivity |].
  simpl. replace (byte_of_rune c) with c
    by (destruct Hc as [-> | [-> | [-> | ->]]]; reflexivity).
  by rewrite whitespace_byte_no_token.
Qed.

(** C4 (as the code has it): when the tokenizer produces no token, the
    cursor of [part_001] fails on [next] with the panic "Error: tokens
    empty", and so does its run; the cursor of [main.go] and [part_000]
    answers [nil] to [next] and stays as it is. *)
Theorem exhausted_cursor (input : string) :
  tokenize input = Return [] ->
  Part001.New input = Return {| tokens := [] |}
  /\ Part001.next {| tokens := [] |} = Panic (Explicit "Error: tokens empty")
  /\ Part001.run input = Panic (Explicit "Error: tokens empty")
  /\ explicit_failure (Part001.run input)
  /\ Main.New input = Return {| tokens := [] |}
  /\ Main.next {| tokens := [] |} = Return (None, {| tokens := [] |})
  /\ Part000.next {| tokens := [] |} = Return (None, {| tokens := [] |}).
Proof.
  intros H.
  assert (H1 : Part001.New input = Return {| tokens := [] |}).
  { unfold Part001.New. rewrite H. reflexivity. }
  assert (H2 : Part001.run input = Panic (Explicit "Error: tokens empty")).
  { unfold Part001.run. rewrite H1. reflexivity. }
  repeat split; try done.
  - rewrite H2. by eexists.
  - unfold Main.New. rewrite H. reflexivity.
Qed.

Lemma exhausted_cursor_witness :
  tokenize " " = Return []
  /\ Part001.run " " = Panic (Explicit "Error: tokens empty")
  /\ Main.next {| tokens := [] |} = Return (None, {| tokens := [] |}).
Proof.
  assert (H : tokenize " " = Return []) by reflexivity.
  pose proof (exhausted_cursor " " H) as (_ & _ & H2 & _ & _ & H5 & _).
  exact (conj H (conj H2 H5)).
Defined.

(** C4 (as the specification states it) fails on a single space: [next] of
    [main.go] returns [nil], and the run ends in the nil dereference of
    [lhsExpr.getTokenType()]. *)
Lemma blank_input_is_not_reported : ~ empty_input_is_reported.
Proof.
  intros H. destruct (H " "%string) as [[msg Hmsg] _]; [reflexivity |].
  vm_compute in Hmsg. discriminate.
Qed.

Lemma blank_input_nil_dereference :
  Main.run " " = Panic NilDereference
  /\ Part000.run " " = Panic NilDereference
  /\ Main.main newline = Panic NilDereference.
Proof. by_running. Qed.

(* ===================================================================== *)
(** ** The order in which the cursor delivers the tokens *)
(* ===================================================================== *)

(** In [main.go] (and [part_000], which has the same [Reverse] and [next])
    as many [next()] calls as there are tokens deliver the tokenizer's
    output from left to right, and the cursor is then exhausted. *)
Lemma Main_delivers_in_order (input : string) :
  exists l,
    Main.New input = Return l
    /\ deliver Main.next (length (tokens_of input)) l
       = Return (Some <$> tokens_of input, {| tokens := [] |}).
Proof.
  eexists. split; [apply Main_New_spec |].
  apply deliver_reverse, Main_next_snoc.
Qed.

(** In [part_001] the same holds when the number of tokens is odd. *)
Lemma Part001_delivers_in_order_odd (input : string) :
  Nat.odd (length (tokens_of input)) = true ->
  exists l,
    Part001.New input = Return l
    /\ deliver Part001.next (length (tokens_of input)) l
       = Return (Some <$> tokens_of input, {| tokens := [] |}).
Proof.
  intros Hodd.
  destruct (Part001_New_spec input) as (c' & HNew & _ & Hrev).
  rewrite (Hrev Hodd) in HNew.
  eexists. split; [exact HNew |].
  apply deliver_reverse, Part001_next_snoc.
Qed.

(** C5: on the input "12" the tokenizer of [part_001] produces the tokens 1
    and 2 in this order, but its [Reverse], whose loop runs only while
    [e-s > 1], leaves a two-element slice as it is, and the cursor delivers
    2 before 1.  [main.go], whose loop runs while [e-s >= 1], delivers 1
    before 2. *)
Theorem part001_even_length_order :
  tokenize "12" = Return [IntegerToken 1; IntegerToken 2]
  /\ Part001.Reverse [IntegerToken 1; IntegerToken 2]
     = Return [IntegerToken 1; IntegerToken 2]
  /\ obind (Part001.New "12") (deliver Part001.next 2)
     = Return ([Some (IntegerToken 2); Some (IntegerToken 1)], {| tokens := [] |})
  /\ obind (Main.New "12") (deliver Main.next 2)
     = Return ([Some (IntegerToken 1); Some (IntegerToken 2)], {| tokens := [] |}).
Proof. by_running. Qed.

(* ===================================================================== *)
(** ** Binding-power lookups *)
(* ===================================================================== *)

(** Every operator literal the tokenizer can produce has both binding
    powers in the infix table. *)
Lemma infix_table_covers_tokenizer (c : Z) (literal : string) :
  token_of_byte c = Some (OperatorToken literal) ->
  exists l_bp r_bp, map_get operatorBindingPowerMap literal = [l_bp; r_bp].
Proof.
  unfold token_of_byte.
  destruct ((c =? 32) || (c =? 13) || (c =? 9) || (c =? 10)); [done |].
  destruct ((48 <=? c) && (c <=? 57)); [done |].
  destruct ((c =? 43) || (c =? 45) || (c =? 42) || (c =? 47)) eqn:Hop; [| done].
  intros [= <-].
  assert (Hc : c = 43 \/ c = 45 \/ c = 42 \/ c = 47) by lia.
  destruct Hc as [-> | [-> | [-> | ->]]]; vm_compute; eauto.
Qed.

(** C7: on the input "*3" [parse] of [main.go] and of [part_000] looks the
    leading operator up in the prefix table, which has no entry for it, and
    indexes the missing entry: the run ends in the runtime's
    index-out-of-range panic.  [part_001] rejects a leading operator with
    a panic of its own. *)
Theorem leading_star_reads_missing_entry :
  tokenize "*3" = Return [OperatorToken "*"; IntegerToken 3]
  /\ prefixBindingPowerMap !! "*"%string = None
  /\ prefixBindingPowerMap !! "/"%string = None
  /\ Main.run "*3" = Panic IndexOutOfRange
  /\ Main.run "/3" = Panic IndexOutOfRange
  /\ Part000.run "*3" = Panic IndexOutOfRange
  /\ Part000.run "/3" = Panic IndexOutOfRange
  /\ Main.run "*" = Panic IndexOutOfRange
  /\ Part001.run "*" = Panic (Explicit "Expression should start with an integer").
Proof. by_running. Qed.

(* ===================================================================== *)
(** ** Characters the tokenizer drops *)
(* ===================================================================== *)

(** On input that is ASCII throughout, the bytes scanned are the bytes of
    the input, and a byte gives a token exactly when it is a digit or one of
    the four operators. *)
Lemma tokens_of_ascii (input : string) :
  Forall (fun b => 0 <= b < 128) (bytes_of_string input) ->
  tokens_of input = omap token_of_byte (bytes_of_string input).
Proof.
  intros H. unfold tokens_of, charArray.
  rewrite range_runes_ascii by (eapply Forall_impl; [exact H | simpl; lia]).
  f_equal. induction H as [| b bs Hb _ IH]; [reflexivity |].
  simpl. rewrite IH. f_equal.
  unfold byte_of_rune. change 255 with (Z.ones 8).
  rewrite Z.land_ones by lia. apply Z.mod_small. lia.
Qed.

Lemma token_of_byte_None (c : Z) :
  token_of_byte c = None <->
  ~ (48 <= c <= 57) /\ c <> 43 /\ c <> 45 /\ c <> 42 /\ c <> 47.
Proof.
  unfold token_of_byte.
  destruct ((c =? 32) || (c =? 13) || (c =? 9) || (c =? 10)) eqn:Hs; [split; [lia | done] |].
  destruct ((48 <=? c) && (c <=? 57)) eqn:Hd; [split; [done | lia] |].
  destruct ((c =? 43) || (c =? 45) || (c =? 42) || (c =? 47)) eqn:Ho; [split; [done | lia] |].
  split; [lia | done].
Qed.

(** C8: the two examples hold, but the tokenizer scans the low byte of each
    character: U+0131 is neither a digit nor an operator, its low byte is
    the digit 1, and it yields an integer token instead of being dropped;
    the input evaluates to 3, where "+2" evaluates to 2. *)
Theorem tokenizer_keeps_low_byte :
  tokenize "1 + 2" = tokenize "1+2"
  /\ tokenize "1@+@2" = tokenize "1+2"
  /\ tokenize "1+2" = Return [IntegerToken 1; OperatorToken "+"; IntegerToken 2]
  /\ range_runes (bytes_of_string dotless_i_plus_2) = [0x131; 43; 50]
  /\ charArray dotless_i_plus_2 = [49; 43; 50]
  /\ tokenize dotless_i_plus_2 = tokenize "1+2"
  /\ tokenize "+2" = Return [OperatorToken "+"; IntegerToken 2]
  /\ Main.run dotless_i_plus_2 = Return 3
  /\ Main.run "+2" = Return 2.
Proof. by_running. Qed.

(* ===================================================================== *)
(** ** Termination of the whole run *)
(* ===================================================================== *)

Lemma Part001_New_returns (input : string) : exists l, Part001.New input = Return l.
Proof. destruct (Part001_New_spec input) as (c' & H & _). eauto. Qed.

Lemma run_terminates
    (New : string -> outcome Lexer) (parse : nat -> Z -> M Expression)
    (evalExpression : Expression -> outcome Z) (input : string) :
  (exists l, New input = Return l) ->
  (forall l, consumes l (parse (S (length (tokens l))) 0 l)) ->
  (forall e, evalExpression e <> OutOfFuel) ->
  terminates
    (obind (New input) (fun lexer =>
     obind (parse (S (length (tokens lexer))) 0 lexer) (fun '(parsed, _) =>
     evalExpression parsed))).
Proof.
  intros [l ->] Hparse Heval. simpl. specialize (Hparse l). unfold terminates.
  destruct (parse (S (length (tokens l))) 0 l) as [[e l'] | p |]; simpl; [apply Heval | done | done].
Qed.

(** C9: in [main.go], [part_000] and [part_001] alike, tokenizing always
    returns; [parse] run with a recursion depth of one more than the number
    of tokens never exhausts that depth (nor the iterations of its loop),
    gives the same answer at every greater depth, and whenever it returns
    it has consumed at least one token, for every token sequence and every
    minimum binding power; [evalExpression] is total; hence every run
    stops, with a value or with a panic. *)
Theorem every_run_terminates :
  always_stops Main.New Main.parse Main.evalExpression Main.run
  /\ always_stops Part000.New Part000.parse Part000.evalExpression Part000.run
  /\ always_stops Part001.New Part001.parse Part001.evalExpression Part001.run.
Proof.
  assert (HM : forall input, exists l, Main.New input = Return l)
    by (intros input; eexists; apply Main_New_spec).
  split; [| split]; unfold always_stops; repeat split.
  - exact HM.
  - intros l bp k. apply Main_parse_consumes. lia.
  - apply Main_parse_depth.
  - exact Main_evalExpression_terminates.
  - intros input. apply run_terminates; [apply HM | | apply Main_evalExpression_terminates].
    intros l. apply Main_parse_consumes. lia.
  - exact HM.
  - intros l bp k. apply Part000_parse_consumes. lia.
  - apply Part000_parse_depth.
  - exact Part000_evalExpression_terminates.
  - intros input. apply run_terminates; [apply HM | | apply Part000_evalExpression_terminates].
    intros l. apply Part000_parse_consumes. lia.
  - exact Part001_New_returns.
  - intros l bp k. apply Part001_parse_consumes. lia.
  - apply Part001_parse_depth.
  - exact Part001_evalExpression_terminates.
  - intros input.
    apply run_terminates; [apply Part001_New_returns | | apply Part001_evalExpression_terminates].
    intros l. apply Part001_parse_consumes. lia.
Qed.

(* ===================================================================== *)
(** ** The tokens the tokenizer can produce *)
(* ===================================================================== *)

Lemma token_of_byte_tokenizer_token (c : Z) (t : Token) :
  token_of_byte c = Some t -> tokenizer_token t.
Proof.
  unfold token_of_byte.
  destruct ((c =? 32) || (c =? 13) || (c =? 9) || (c =? 10)); [done |].
  destruct ((48 <=? c) && (c <=? 57)) eqn:Hd; [intros [= <-]; simpl; lia |].
  destruct ((c =? 43) || (c =? 45) || (c =? 42) || (c =? 47)) eqn:Hop; [| done].
  intros [= <-].
  assert (Hc : c = 43 \/ c = 45 \/ c = 42 \/ c = 47) by lia.
  destruct Hc as [-> | [-> | [-> | ->]]]; vm_compute; auto.
Qed.

Lemma tokens_of_tokenizer_token (input : string) : Forall tokenizer_token (tokens_of input).
Proof.
  unfold tokens_of. generalize (charArray input) as cs.
  induction cs as [| c cs IH]; simpl; [constructor |].
  destruct (token_of_byte c) as [t |] eqn:Ht; [| exact IH].
  constructor; [by apply (token_of_byte_tokenizer_token c) | exact IH].
Qed.

(** C10: for every input string, the tokenizer's output and the token
    slice of the lexer [New] returns (in [main.go], [part_000] and
    [part_001]) hold only integer tokens with a value from 0 to 9 and
    operator tokens with one of the literals "+", "-", "*", "/"; in
    particular no [PrefixToken] and no parenthesis literal. *)
Theorem tokenizer_produces_digits_and_operators (input : string) :
  (exists ts, tokenize input = Return ts /\ Forall tokenizer_token ts)
  /\ (exists l, Main.New input = Return l /\ Forall tokenizer_token (tokens l))
  /\ (exists l, Part000.New input = Return l /\ Forall tokenizer_token (tokens l))
  /\ (exists l, Part001.New input = Return l /\ Forall tokenizer_token (tokens l)).
Proof.
  pose proof (tokens_of_tokenizer_token input) as H.
  assert (HM : exists l, Main.New input = Return l /\ Forall tokenizer_token (tokens l)).
  { eexists. split; [apply Main_New_spec |]. simpl. by apply Forall_reverse. }
  repeat split; try exact HM.
  - eexists. split; [apply tokenize_spec | exact H].
  - destruct (Part001_New_spec input) as (c' & HNew & Hperm & _).
    eexists. split; [exact HNew |]. simpl. by rewrite Hperm.
Qed.

(* ===================================================================== *)
(** * Further properties of the code *)
(* ===================================================================== *)

(** ** Reading a run backwards *)

Lemma bind_Return {A B} (m : M A) (k : A -> M B) (l : Lexer) (r : B * Lexer) :
  bind m k l = Return r ->
  exists a l1, m l = Return (a, l1) /\ k a l1 = Return r.
Proof.
  unfold bind. destruct (m l) as [[a l1] | p |]; [eauto | done | done].
Qed.

Lemma lift_Return {A} (o : outcome A) (l : Lexer) (a : A) (l1 : Lexer) :
  lift o l = Return (a, l1) -> o = Return a /\ l1 = l.
Proof. unfold lift. destruct o; simpl; [| done | done]. by intros [= -> ->]. Qed.

Lemma ret_Return {A} (a b : A) (l l1 : Lexer) :
  ret a l = Return (b, l1) -> b = a /\ l1 = l.
Proof. by intros [= -> ->]. Qed.

(** ** The binding-power tables *)

Lemma map_get_operator (literal : string) :
  map_get operatorBindingPowerMap literal = infix_powers literal.
Proof.
  unfold map_get, operatorBindingPowerMap, infix_powers.
  repeat case_decide; simplify_map_eq; reflexivity.
Qed.

Lemma map_get_prefix (literal : string) :
  map_get prefixBindingPowerMap literal = prefix_powers literal.
Proof.
  unfold map_get, prefixBindingPowerMap, prefix_powers.
  repeat case_decide; simplify_map_eq; reflexivity.
Qed.

(** A successful lookup in the infix table: the key is one of the four
    operators and the left binding power is 1 or 3. *)
Lemma infix_lookup (literal : string) (l_bp : Z) :
  index (map_get operatorBindingPowerMap literal) 0 = Return l_bp ->
  (literal = "+"%string \/ literal = "-"%string \/ literal = "*"%string
   \/ literal = "/"%string)
  /\ 1 <= l_bp.
Proof.
  rewrite map_get_operator. unfold infix_powers.
  repeat case_decide; subst; intros Hlook; vm_compute in Hlook; try discriminate;
    injection Hlook as <-; (split; [auto 10 | lia]).
Qed.

Lemma prefix_lookup (literal : string) (r_bp : Z) :
  index (map_get prefixBindingPowerMap literal) 1 = Return r_bp ->
  (literal = "+"%string \/ literal = "-"%string) /\ r_bp = 5.
Proof.
  rewrite map_get_prefix. unfold prefix_powers.
  repeat case_decide; subst; intros Hlook; vm_compute in Hlook; try discriminate;
    injection Hlook as <-; auto.
Qed.

(** ** The tokens a parse consumes are the tokens of its tree *)

Lemma tokenizer_token_not_paren (literal : string) :
  tokenizer_token (OperatorToken literal) -> String.eqb literal "(" = false.
Proof. simpl. intros [-> | [-> | [-> | ->]]]; reflexivity. Qed.

Section LoopAccounts.
Variable next : M (option Token).
Variable rec : Z -> M Expression.
Hypothesis Hnext :
  forall us u, next {| tokens := us ++ [u] |} = Return (Some u, {| tokens := us |}).
Hypothesis Hrec :
  forall bp l, Forall tokenizer_token (tokens l) -> accounts_for l (rec bp l).

Lemma parse_loop_accounts (iters : nat) :
  forall min_bp lhs l e l',
    Forall tokenizer_token (tokens l) ->
    well_formed lhs ->
    parse_loop next rec iters min_bp lhs l = Return (e, l') ->
    well_formed e
    /\ exists more, unparse e = unparse lhs ++ more
                    /\ tokens l = tokens l' ++ reverse more.
Proof.
  induction iters as [| iters IH]; intros min_bp lhs [ts] e l' Htok Hwf Hrun;
    simpl in Hrun; [done |].
  destruct (snoc_cases ts) as [-> | (us & u & ->)].
  - unfold bind in Hrun. rewrite peek_nil in Hrun. injection Hrun as <- <-.
    split; [done |]. exists []. by rewrite app_nil_r.
  - unfold bind at 1 in Hrun. rewrite peek_snoc in Hrun.
    destruct u as [v | literal | literal]; [done | | done].
    apply bind_Return in Hrun as (l_bp & l1 & Hl & Hrun).
    apply lift_Return in Hl as [Hl ->].
    apply bind_Return in Hrun as (r_bp & l1 & Hr & Hrun).
    apply lift_Return in Hr as [Hr ->].
    destruct (l_bp <? min_bp).
    { apply ret_Return in Hrun as [-> ->]. split; [done |].
      exists []. by rewrite !app_nil_r. }
    apply bind_Return in Hrun as (t & l1 & Hn & Hrun).
    rewrite Hnext in Hn. injection Hn as <- <-.
    apply bind_Return in Hrun as (rhs & l2 & Hrhs & Hrun).
    simpl in Htok. apply Forall_app in Htok as [Hus _].
    pose proof (Hrec r_bp {| tokens := us |} Hus) as Hacc.
    rewrite Hrhs in Hacc. destruct Hacc as [Hwfr Hsplit]. simpl in Hsplit.
    apply IH in Hrun as (Hwfe & more & Hun & Hrest).
    + split; [done |].
      exists (OperatorToken literal :: unparse rhs ++ more). split.
      * rewrite Hun. simpl. by rewrite <- app_assoc.
      * simpl. rewrite Hsplit, Hrest.
        rewrite reverse_cons, reverse_app, <- !app_assoc. done.
    + rewrite Hsplit in Hus. by apply Forall_app in Hus as [? _].
    + apply wf_infix; [| done | done]. by apply infix_lookup in Hl as [? _].
Qed.
End LoopAccounts.

Lemma Main_parse_accounts (d : nat) :
  forall bp l, Forall tokenizer_token (tokens l) -> accounts_for l (Main.parse d bp l).
Proof.
  induction d as [| d IH]; intros bp [ts] Htok; [done |].
  cbn [Main.parse].
  destruct (Main.parse_call (Main.parse d) bp {| tokens := ts |}) as [[e l'] | |] eqn:Hrun;
    [| done | done].
  simpl. unfold Main.parse_call in Hrun.
  destruct (snoc_cases ts) as [-> | (us & u & ->)]; [by vm_compute in Hrun |].
  unfold bind at 1 in Hrun. rewrite Main_next_snoc in Hrun.
  simpl in Htok. apply Forall_app in Htok as [Hus Hu].
  rewrite Forall_singleton in Hu.
  destruct u as [v | literal | literal]; [| | done].
  - apply (parse_loop_accounts Main.next (Main.parse d) Main_next_snoc IH) in Hrun
      as (Hwf & more & Hun & Hrest); [| done | by apply wf_lit].
    split; [done |]. simpl in Hun, Hrest. rewrite Hun, Hrest.
    by rewrite reverse_cons, <- app_assoc.
  - rewrite (tokenizer_token_not_paren _ Hu) in Hrun.
    apply bind_Return in Hrun as ([] & l1 & Hl1 & Hrun).
    apply ret_Return in Hl1 as [_ ->].
    apply bind_Return in Hrun as (r_bp & l1 & Hr & Hrun).
    apply lift_Return in Hr as [Hr ->].
    apply bind_Return in Hrun as (rhs & l2 & Hrhs & Hrun).
    pose proof (IH r_bp {| tokens := us |} Hus) as Hacc.
    rewrite Hrhs in Hacc. destruct Hacc as [Hwfr Hsplit]. simpl in Hsplit.
    apply (parse_loop_accounts Main.next (Main.parse d) Main_next_snoc IH) in Hrun
      as (Hwf & more & Hun & Hrest).
    + split; [done |]. simpl in Hun. rewrite Hun, Hsplit, Hrest.
      by rewrite reverse_cons, reverse_app, <- !app_assoc.
    + rewrite Hsplit in Hus. by apply Forall_app in Hus as [? _].
    + apply wf_prefix; [| done]. by apply prefix_lookup in Hr as [? _].
Qed.

(** ** A parse from binding power 0 leaves no token *)

(** No left binding power in the table is below 1, so a loop entered with a
    minimum of at most 1 stops only when the cursor is exhausted. *)
Lemma parse_loop_exhausts (next : M (option Token)) (rec : Z -> M Expression)
    (iters : nat) :
  forall min_bp lhs l e l',
    min_bp <= 1 ->
    parse_loop next rec iters min_bp lhs l = Return (e, l') ->
    tokens l' = [].
Proof.
  induction iters as [| iters IH]; intros min_bp lhs [ts] e l' Hbp Hrun;
    simpl in Hrun; [done |].
  destruct (snoc_cases ts) as [-> | (us & u & ->)].
  - unfold bind in Hrun. rewrite peek_nil in Hrun. by injection Hrun as <- <-.
  - unfold bind at 1 in Hrun. rewrite peek_snoc in Hrun.
    destruct u as [v | literal | literal]; [done | | done].
    apply bind_Return in Hrun as (l_bp & l1 & Hl & Hrun).
    apply lift_Return in Hl as [Hl ->].
    apply bind_Return in Hrun as (r_bp & l1 & Hr & Hrun).
    apply lift_Return in Hr as [Hr ->].
    apply infix_lookup in Hl as [_ Hl].
    destruct (Z.ltb_spec l_bp min_bp); [lia |].
    apply bind_Return in Hrun as (t & l1 & Hn & Hrun).
    apply bind_Return in Hrun as (rhs & l2 & Hrhs & Hrun).
    by apply IH in Hrun.
Qed.

Lemma Main_parse_exhausts (d : nat) (bp : Z) (l : Lexer) (e : Expression) (l' : Lexer) :
  bp <= 1 -> Main.parse d bp l = Return (e, l') -> tokens l' = [].
Proof.
  intros Hbp. destruct d as [| d]; [done |]. cbn [Main.parse]. unfold Main.parse_call.
  intros Hrun. apply bind_Return in Hrun as (t & l1 & Hn & Hrun).
  destruct t as [[v | literal | literal] |]; [| | | done];
    try (by eapply parse_loop_exhausts).
  apply bind_Return in Hrun as (u & l2 & _ & Hrun).
  apply bind_Return in Hrun as (r_bp & l3 & _ & Hrun).
  apply bind_Return in Hrun as (rhs & l4 & _ & Hrun).
  by eapply parse_loop_exhausts.
Qed.

Lemma Part000_parse_exhausts (d : nat) (bp : Z) (l : Lexer) (e : Expression) (l' : Lexer) :
  bp <= 1 -> Part000.parse d bp l = Return (e, l') -> tokens l' = [].
Proof.
  intros Hbp. destruct d as [| d]; [done |]. cbn [Part000.parse]. unfold Part000.parse_call.
  intros Hrun. apply bind_Return in Hrun as (t & l1 & Hn & Hrun).
  destruct t as [[v | literal | literal] |]; [| | | done];
    try (by eapply parse_loop_exhausts).
  apply bind_Return in Hrun as (r_bp & l3 & _ & Hrun).
  apply bind_Return in Hrun as (rhs & l4 & _ & Hrun).
  by eapply parse_loop_exhausts.
Qed.

Lemma Part001_parse_exhausts (d : nat) (bp : Z) (l : Lexer) (e : Expression) (l' : Lexer) :
  bp <= 1 -> Part001.parse d bp l = Return (e, l') -> tokens l' = [].
Proof.
  intros Hbp. destruct d as [| d]; [done |]. cbn [Part001.parse]. unfold Part001.parse_call.
  intros Hrun. apply bind_Return in Hrun as (t & l1 & Hn & Hrun).
  destruct t as [[v | literal | literal] |]; [| done | done | done].
  by eapply parse_loop_exhausts.
Qed.

(** ** Evaluating a well-formed expression *)

Lemma wrap_range (x : Z) : GoInt.min_int <= GoInt.wrap x <= GoInt.max_int.
Proof.
  unfold GoInt.wrap, GoInt.min_int, GoInt.max_int, GoInt.bits.
  pose proof (Z.mod_pos_bound (x + 2 ^ (64 - 1)) (2 ^ 64) ltac:(lia)) as H.
  change (2 ^ (64 - 1)) with 9223372036854775808 in *.
  change (2 ^ 64) with 18446744073709551616 in *. lia.
Qed.

Lemma apply_op_well_formed (op : string) (a b : Z) :
  op = "+"%string \/ op = "-"%string \/ op = "*"%string \/ op = "/"%string ->
  (exists v, apply_op op a b = Return v /\ GoInt.min_int <= v <= GoInt.max_int)
  \/ (apply_op op a b = Panic DivideByZero /\ op = "/"%string /\ b = 0).
Proof.
  intros [-> | [-> | [-> | ->]]]; unfold apply_op; simpl.
  - left. eexists. split; [reflexivity | apply wrap_range].
  - left. eexists. split; [reflexivity | apply wrap_range].
  - left. eexists. split; [reflexivity | apply wrap_range].
  - unfold GoInt.div. destruct (Z.eqb_spec b 0) as [-> | Hb]; [by right |].
    left. eexists. split; [reflexivity | apply wrap_range].
Qed.

Lemma Main_eval_well_formed (e : Expression) :
  well_formed e ->
  (exists v, Main.evalExpression e = Return v /\ in_int_range v)
  \/ Main.evalExpression e = Panic DivideByZero.
Proof.
  induction 1 as [v Hv | op rhs Hop _ IH | lhs rhs op Hop _ IHl _ IHr]; simpl.
  - left. exists v. split; [done |]. unfold in_int_range.
    change GoInt.min_int with (-9223372036854775808).
    change GoInt.max_int with 9223372036854775807. lia.
  - unfold evalPrefix.
    destruct IH as [(v & -> & _) | ->]; destruct Hop as [-> | ->]; simpl; auto;
      left; eexists; (split; [reflexivity | apply wrap_range]).
  - destruct IHl as [(a & -> & _) | ->]; simpl; [| by right].
    destruct IHr as [(b & -> & _) | ->]; simpl; [| by right].
    rewrite call_operation.
    destruct (apply_op_well_formed op a b Hop) as [(v & -> & Hv) | (-> & _)]; eauto.
Qed.

(** ** The panics a parse can end in *)

Lemma bind_Panic {A B} (m : M A) (k : A -> M B) (l : Lexer) (p : panic) :
  bind m k l = Panic p ->
  m l = Panic p \/ exists a l1, m l = Return (a, l1) /\ k a l1 = Panic p.
Proof.
  unfold bind. destruct (m l) as [[a l1] | q |]; [eauto | | done].
  intros [= ->]. by left.
Qed.

Lemma lift_index_Panic {A} (a : list A) (i : Z) (l : Lexer) (p : panic) :
  lift (index a i) l = Panic p -> p = IndexOutOfRange.
Proof.
  unfold lift, index. destruct (i <? 0); simpl; [by intros [= <-] |].
  destruct (a !! Z.to_nat i); simpl; [done | by intros [= <-]].
Qed.

Section LoopPanics.
Variable next : M (option Token).
Variable rec : Z -> M Expression.
Hypothesis Hnext :
  forall us u, next {| tokens := us ++ [u] |} = Return (Some u, {| tokens := us |}).
Hypothesis Hrec :
  forall bp l, Forall tokenizer_token (tokens l) -> accounts_for l (rec bp l).
Hypothesis Hrec_panic :
  forall bp l p, Forall tokenizer_token (tokens l) -> rec bp l = Panic p -> parse_panic p.

Lemma parse_loop_panics (iters : nat) :
  forall min_bp lhs l p,
    Forall tokenizer_token (tokens l) ->
    parse_loop next rec iters min_bp lhs l = Panic p ->
    parse_panic p.
Proof.
  induction iters as [| iters IH]; intros min_bp lhs [ts] p Htok Hrun;
    simpl in Hrun; [done |].
  destruct (snoc_cases ts) as [-> | (us & u & ->)].
  - unfold bind in Hrun. by rewrite peek_nil in Hrun.
  - unfold bind at 1 in Hrun. rewrite peek_snoc in Hrun.
    destruct u as [v | literal | literal];
      [injection Hrun as <-; right; by right | | injection Hrun as <-; right; by right].
    apply bind_Panic in Hrun as [Hp | (l_bp & l1 & Hl & Hrun)];
      [apply lift_index_Panic in Hp as ->; right; by left |].
    apply lift_Return in Hl as [Hl ->].
    apply bind_Panic in Hrun as [Hp | (r_bp & l1 & Hr & Hrun)];
      [apply lift_index_Panic in Hp as ->; right; by left |].
    apply lift_Return in Hr as [Hr ->].
    destruct (l_bp <? min_bp); [done |].
    apply bind_Panic in Hrun as [Hp | (t & l1 & Hn & Hrun)];
      [by rewrite Hnext in Hp |].
    rewrite Hnext in Hn. injection Hn as <- <-.
    simpl in Htok. apply Forall_app in Htok as [Hus _].
    apply bind_Panic in Hrun as [Hp | (rhs & l2 & Hrhs & Hrun)];
      [by apply Hrec_panic in Hp |].
    pose proof (Hrec r_bp {| tokens := us |} Hus) as Hacc.
    rewrite Hrhs in Hacc. destruct Hacc as [_ Hsplit]. simpl in Hsplit.
    apply IH in Hrun; [done |].
    rewrite Hsplit in Hus. by apply Forall_app in Hus as [? _].
Qed.
End LoopPanics.

Lemma Main_parse_panics (d : nat) :
  forall bp l p,
    Forall tokenizer_token (tokens l) -> Main.parse d bp l = Panic p -> parse_panic p.
Proof.
  induction d as [| d IH]; intros bp [ts] p Htok Hrun; [done |].
  cbn [Main.parse] in Hrun. unfold Main.parse_call in Hrun.
  destruct (snoc_cases ts) as [-> | (us & u & ->)].
  { vm_compute in Hrun. injection Hrun as <-. by left. }
  unfold bind at 1 in Hrun. rewrite Main_next_snoc in Hrun.
  simpl in Htok. apply Forall_app in Htok as [Hus Hu].
  rewrite Forall_singleton in Hu.
  pose proof (parse_loop_panics Main.next (Main.parse d) Main_next_snoc
                (Main_parse_accounts d) IH) as Hloop.
  destruct u as [v | literal | literal]; [| | done].
  - by apply Hloop in Hrun.
  - rewrite (tokenizer_token_not_paren _ Hu) in Hrun.
    apply bind_Panic in Hrun as [Hp | ([] & l1 & Hl1 & Hrun)]; [done |].
    apply ret_Return in Hl1 as [_ ->].
    apply bind_Panic in Hrun as [Hp | (r_bp & l1 & Hr & Hrun)];
      [apply lift_index_Panic in Hp as ->; right; by left |].
    apply lift_Return in Hr as [Hr ->].
    apply bind_Panic in Hrun as [Hp | (rhs & l2 & Hrhs & Hrun)];
      [by apply IH in Hp |].
    pose proof (Main_parse_accounts d r_bp {| tokens := us |} Hus) as Hacc.
    rewrite Hrhs in Hacc. destruct Hacc as [_ Hsplit]. simpl in Hsplit.
    apply Hloop in Hrun; [done |].
    rewrite Hsplit in Hus. by apply Forall_app in Hus as [? _].
Qed.

(** ** [main.go] and [part_000] parse alike *)

Lemma bind_ext {A B} (m m' : M A) (k k' : A -> M B) (l : Lexer) :
  m l = m' l ->
  (forall a l1, m l = Return (a, l1) -> k a l1 = k' a l1) ->
  bind m k l = bind m' k' l.
Proof.
  unfold bind. intros <- Hk. destruct (m l) as [[a l1] | |]; [by apply Hk | done | done].
Qed.

Section LoopAgrees.
Variable next : M (option Token).
Variables rec rec' : Z -> M Expression.
Hypothesis Hnext :
  forall us u, next {| tokens := us ++ [u] |} = Return (Some u, {| tokens := us |}).
Hypothesis Hrec :
  forall bp l, Forall tokenizer_token (tokens l) -> accounts_for l (rec bp l).
Hypothesis Hagree :
  forall bp l, Forall tokenizer_token (tokens l) -> rec bp l = rec' bp l.

Lemma parse_loop_agrees (iters : nat) :
  forall min_bp lhs l,
    Forall tokenizer_token (tokens l) ->
    parse_loop next rec iters min_bp lhs l = parse_loop next rec' iters min_bp lhs l.
Proof.
  induction iters as [| iters IH]; intros min_bp lhs [ts] Htok; simpl; [done |].
  apply bind_ext; [done |]. intros t l1 Hpeek.
  destruct (snoc_cases ts) as [-> | (us & u & ->)].
  { rewrite peek_nil in Hpeek. by injection Hpeek as <- <-. }
  rewrite peek_snoc in Hpeek. injection Hpeek as <- <-.
  destruct u as [v | literal | literal]; [done | | done].
  apply bind_ext; [done |]. intros l_bp l1 Hl. apply lift_Return in Hl as [_ ->].
  apply bind_ext; [done |]. intros r_bp l1 Hr. apply lift_Return in Hr as [_ ->].
  destruct (l_bp <? min_bp); [done |].
  apply bind_ext; [done |]. intros t l1 Hn.
  rewrite Hnext in Hn. injection Hn as <- <-.
  simpl in Htok. apply Forall_app in Htok as [Hus _].
  apply bind_ext; [by apply Hagree |]. intros rhs l2 Hrhs.
  pose proof (Hrec r_bp {| tokens := us |} Hus) as Hacc.
  rewrite Hrhs in Hacc. destruct Hacc as [_ Hsplit]. simpl in Hsplit.
  apply IH. rewrite Hsplit in Hus. by apply Forall_app in Hus as [? _].
Qed.
End LoopAgrees.

(** On the tokenizer's tokens the parenthesis branch of [main.go] is never
    entered, and its [parse] is that of [part_000]. *)
Lemma Main_parse_Part000 (d : nat) :
  forall bp l,
    Forall tokenizer_token (tokens l) -> Main.parse d bp l = Part000.parse d bp l.
Proof.
  induction d as [| d IH]; intros bp [ts] Htok; [done |].
  cbn [Main.parse Part000.parse]. unfold Main.parse_call, Part000.parse_call, Part000.next.
  pose proof (parse_loop_agrees Main.next (Main.parse d) (Part000.parse d) Main_next_snoc
                (Main_parse_accounts d) IH) as Hloop.
  apply bind_ext; [done |]. intros t l1 Hn.
  destruct (snoc_cases ts) as [-> | (us & u & ->)].
  { rewrite Main_next_nil in Hn. by injection Hn as <- <-. }
  rewrite Main_next_snoc in Hn. injection Hn as <- <-.
  simpl in Htok. apply Forall_app in Htok as [Hus Hu].
  rewrite Forall_singleton in Hu.
  destruct u as [v | literal | literal]; [| | done].
  - by apply Hloop.
  - rewrite (tokenizer_token_not_paren _ Hu).
    unfold bind at 1. unfold ret at 1.
    apply bind_ext; [done |]. intros r_bp l1 Hr. apply lift_Return in Hr as [_ ->].
    apply bind_ext; [by apply IH |]. intros rhs l2 Hrhs.
    pose proof (Main_parse_accounts d r_bp {| tokens := us |} Hus) as Hacc.
    rewrite Hrhs in Hacc. destruct Hacc as [_ Hsplit]. simpl in Hsplit.
    apply Hloop. rewrite Hsplit in Hus. by apply Forall_app in Hus as [? _].
Qed.

Lemma eval_well_formed_Part000 (e : Expression) :
  well_formed e -> Part000.evalExpression e = Main.evalExpression e.
Proof.
  induction 1 as [v Hv | op rhs Hop _ IH | lhs rhs op Hop _ IHl _ IHr]; simpl.
  - done.
  - unfold evalPrefix. by rewrite IH.
  - by rewrite IHl, IHr.
Qed.

(** ** What [part_001] accepts, [main.go] accepts alike *)

Lemma returns_as_refl {A} (o : outcome A) : returns_as o o.
Proof. by intros r. Qed.

Lemma returns_as_bind {A B} (m m' : M A) (k k' : A -> M B) (l : Lexer) :
  returns_as (m l) (m' l) ->
  (forall a l1, returns_as (k a l1) (k' a l1)) ->
  returns_as (bind m k l) (bind m' k' l).
Proof.
  intros Hm Hk r Hr. apply bind_Return in Hr as (a & l1 & Ha & Hr).
  unfold bind. rewrite (Hm _ Ha). by apply Hk.
Qed.

Section LoopReturnsAs.
Variables next next' : M (option Token).
Variables rec rec' : Z -> M Expression.
Hypothesis Hnext : forall l, returns_as (next l) (next' l).
Hypothesis Hrec : forall bp l, returns_as (rec bp l) (rec' bp l).

Lemma parse_loop_returns_as (iters : nat) :
  forall min_bp lhs l,
    returns_as (parse_loop next rec iters min_bp lhs l)
               (parse_loop next' rec' iters min_bp lhs l).
Proof.
  induction iters as [| iters IH]; intros min_bp lhs l; simpl; [apply returns_as_refl |].
  apply returns_as_bind; [apply returns_as_refl |].
  intros [[v | literal | literal] |] l1; try apply returns_as_refl.
  apply returns_as_bind; [apply returns_as_refl |]. intros l_bp l2.
  apply returns_as_bind; [apply returns_as_refl |]. intros r_bp l3.
  destruct (l_bp <? min_bp); [apply returns_as_refl |].
  apply returns_as_bind; [apply Hnext |]. intros _ l4.
  apply returns_as_bind; [apply Hrec |]. intros rhs l5.
  apply IH.
Qed.
End LoopReturnsAs.

Lemma Part001_next_returns_as (l : Lexer) : returns_as (Part001.next l) (Main.next l).
Proof.
  unfold Part001.next, Main.next. intros r. by destruct (len (tokens l) =? 0).
Qed.

Lemma Part001_parse_returns_as (d : nat) :
  forall bp l, returns_as (Part001.parse d bp l) (Main.parse d bp l).
Proof.
  induction d as [| d IH]; intros bp l; [apply returns_as_refl |].
  cbn [Part001.parse Main.parse]. unfold Part001.parse_call, Main.parse_call.
  apply returns_as_bind; [apply Part001_next_returns_as |].
  intros [[v | literal | literal] |] l1; try (by intros r).
  unfold parse_rest.
  apply parse_loop_returns_as; [apply Part001_next_returns_as | apply IH].
Qed.

(** An expression [part_001] can evaluate has no prefix operator: it has
    an odd number of tokens, and [main.go] gives it the same value. *)
Lemma Part001_eval_returns (e : Expression) (v : Z) :
  Part001.evalExpression e = Return v ->
  Main.evalExpression e = Return v /\ Nat.Odd (length (unparse e)).
Proof.
  revert v. induction e as [| t | op rhs IH | lhs IHl rhs IHr op]; intros v; simpl.
  - done.
  - destruct t; [| done | done]. intros [= ->]. split; [done |]. by exists 0%nat.
  - done.
  - destruct (Part001.evalExpression lhs) as [a | |]; [| done | done].
    destruct (Part001.evalExpression rhs) as [b | |]; [| done | done].
    simpl. rewrite Part001_call_operation.
    destruct (IHl a eq_refl) as [-> [i Hi]]. destruct (IHr b eq_refl) as [-> [j Hj]].
    simpl. rewrite call_operation. intros ->. split; [done |].
    exists (i + j + 1)%nat. rewrite length_app. simpl. lia.
Qed.

(** ** What [main] prints *)

Lemma Part000_printed_spec (e : Expression) :
  Part000.printed e = obind (Part000.evalExpression e) (fun v => Return (Println v)).
Proof. destruct e as [| [v | literal | literal] | op rhs | lhs rhs op]; reflexivity. Qed.

Lemma Part001_printed_spec (e : Expression) :
  Part001.printed e = obind (Part001.evalExpression e) (fun v => Return (Println v)).
Proof. destruct e as [| [v | literal | literal] | op rhs | lhs rhs op]; reflexivity. Qed.

Lemma ReadString_first_line (line rest : string) :
  Forall (fun c => c <> 10) (bytes_of_string line) ->
  ReadString (line ++ newline ++ rest) = Some (line ++ newline)%string.
Proof.
  induction line as [| c line IH]; simpl; [done |].
  intros H. apply Forall_cons in H as [Hc H].
  destruct (Ascii.eqb_spec c "010"%char) as [-> | _]; [by vm_compute in Hc |].
  by rewrite IH.
Qed.

Lemma ReadString_no_newline (stdin : string) :
  Forall (fun c => c <> 10) (bytes_of_string stdin) -> ReadString stdin = None.
Proof.
  induction stdin as [| c stdin IH]; simpl; [done |].
  intros H. apply Forall_cons in H as [Hc H].
  destruct (Ascii.eqb_spec c "010"%char) as [-> | _]; [by vm_compute in Hc |].
  by rewrite IH.
Qed.

(* ===================================================================== *)
(** ** Properties of [parse], [evalExpression] and [main] on every input *)
(* ===================================================================== *)

Lemma Main_parse_returns (d : nat) (bp : Z) (l : Lexer) (e : Expression) (l' : Lexer) :
  Forall tokenizer_token (tokens l) ->
  Main.parse d bp l = Return (e, l') ->
  well_formed e /\ tokens l = tokens l' ++ reverse (unparse e).
Proof.
  intros Htok Hrun. pose proof (Main_parse_accounts d bp l Htok) as H.
  by rewrite Hrun in H.
Qed.

(** X1: when [parse] of [main.go] returns on a cursor holding tokenizer
    tokens, for any depth and any minimum binding power, the tree is well
    formed and the tokens taken from the cursor are exactly the tokens of
    the tree, in order: none is lost, repeated or moved. *)
Theorem parse_consumes_the_tokens_of_its_tree
    (d : nat) (bp : Z) (l : Lexer) (e : Expression) (l' : Lexer) :
  Forall tokenizer_token (tokens l) ->
  Main.parse d bp l = Return (e, l') ->
  well_formed e /\ tokens l = tokens l' ++ reverse (unparse e).
Proof. apply Main_parse_returns. Qed.

Lemma parse_consumes_the_tokens_of_its_tree_witness :
  well_formed (InfixExpression (lit 1) (lit 2) "*")
  /\ [IntegerToken 3; OperatorToken "+"; IntegerToken 2; OperatorToken "*"; IntegerToken 1]
     = [IntegerToken 3; OperatorToken "+"]
       ++ reverse (unparse (InfixExpression (lit 1) (lit 2) "*")).
Proof.
  apply (parse_consumes_the_tokens_of_its_tree 3 2
           {| tokens := [IntegerToken 3; OperatorToken "+"; IntegerToken 2;
                         OperatorToken "*"; IntegerToken 1] |}
           (InfixExpression (lit 1) (lit 2) "*")
           {| tokens := [IntegerToken 3; OperatorToken "+"] |}).
  - simpl. repeat (apply Forall_cons_2 || apply Forall_nil_2); simpl; auto 10; lia.
  - vm_compute. reflexivity.
Defined.

(** X2: when the top-level parse of [main.go] returns, the cursor is
    exhausted and the tree, read from left to right, spells the tokenizer's
    output: the tree is a bracketing of the whole input. *)
Theorem parse_tree_spells_the_input
    (input : string) (l : Lexer) (e : Expression) (l' : Lexer) :
  Main.New input = Return l ->
  Main.parse (S (length (tokens l))) 0 l = Return (e, l') ->
  tokens l' = [] /\ well_formed e /\ tokenize input = Return (unparse e).
Proof.
  rewrite Main_New_spec. intros [= <-] Hrun.
  pose proof (Main_parse_exhausts _ 0 _ _ _ ltac:(lia) Hrun) as Hl'.
  apply Main_parse_returns in Hrun as [Hwf Hsplit].
  - split; [done | split; [done |]]. rewrite tokenize_spec. f_equal.
    simpl in Hsplit. rewrite Hl' in Hsplit. simpl in Hsplit.
    by apply (inj reverse).
  - simpl. apply Forall_reverse, tokens_of_tokenizer_token.
Qed.

Lemma parse_tree_spells_the_input_witness :
  tokenize "1 + 2*3"
  = Return (unparse (InfixExpression (lit 1) (InfixExpression (lit 2) (lit 3) "*") "+")).
Proof.
  refine (proj2 (proj2 (parse_tree_spells_the_input "1 + 2*3"
    {| tokens := [IntegerToken 3; OperatorToken "*"; IntegerToken 2;
                  OperatorToken "+"; IntegerToken 1] |}
    (InfixExpression (lit 1) (InfixExpression (lit 2) (lit 3) "*") "+")
    {| tokens := [] |} _ _))); vm_compute; reflexivity.
Defined.

(** The outcome of a run of [main.go], by cases. *)
Lemma Main_run_cases (input : string) :
  (exists v, Main.run input = Return v /\ in_int_range v)
  \/ Main.run input = Panic DivideByZero
  \/ exists p, Main.run input = Panic p /\ parse_panic p.
Proof.
  unfold Main.run. rewrite Main_New_spec. cbn [obind].
  assert (Htok : Forall tokenizer_token
                   (tokens {| tokens := reverse (tokens_of input) |})).
  { simpl. apply Forall_reverse, tokens_of_tokenizer_token. }
  set (l := {| tokens := reverse (tokens_of input) |}) in *.
  pose proof (Main_parse_consumes (S (length (tokens l))) 0 l ltac:(lia)) as Hstop.
  destruct (Main.parse (S (length (tokens l))) 0 l) as [[e l'] | p |] eqn:Hrun; [| | done].
  - apply Main_parse_returns in Hrun as [Hwf _]; [| done].
    cbn [obind]. destruct (Main_eval_well_formed e Hwf) as [(v & -> & Hv) | ->]; eauto.
  - right. right. exists p. split; [done |]. by eapply Main_parse_panics.
Qed.





(** X5: [part_000] and [main.go] behave alike on every input: the same
    value or the same panic from [run], and the same output or panic from
    [main].  The parenthesis branch of [main.go], its [return 0] and the
    type cases of [part_000]'s [main] make no difference. *)
Theorem part000_and_main_agree (input : string) :
  Part000.run input = Main.run input /\ Part000.main input = Main.main input.
Proof.
  assert (Hparse : forall a : string,
            obind (Main.New a) (fun lexer =>
              obind (Part000.parse (S (length (tokens lexer))) 0 lexer)
                (fun '(parsed, _) => Part000.evalExpression parsed))
            = Main.run a).
  { intros a. unfold Main.run. rewrite Main_New_spec. cbn [obind].
    set (l := {| tokens := reverse (tokens_of a) |}).
    assert (Htok : Forall tokenizer_token (tokens l))
      by (simpl; apply Forall_reverse, tokens_of_tokenizer_token).
    rewrite <- (Main_parse_Part000 _ 0 l Htok).
    destruct (Main.parse (S (length (tokens l))) 0 l) as [[e l'] | p |] eqn:Hrun;
      [| done | done].
    apply Main_parse_returns in Hrun as [Hwf _]; [| done].
    cbn [obind]. by apply eval_well_formed_Part000. }
  split; [apply Hparse |].
  unfold Part000.main, Main.main. destruct (ReadString input) as [a |]; [| done].
  rewrite <- Hparse. unfold Part000.New.
  destruct (Main.New a) as [l | |]; [| done | done]. cbn [obind].
  destruct (Part000.parse (S (length (tokens l))) 0 l) as [[e l'] | |]; [| done | done].
  cbn [obind]. apply Part000_printed_spec.
Qed.

(** X6: an input on which [part_001] returns a value has an odd number of
    tokens, so that its [Reverse] did reverse them, and [main.go] returns
    the same value on it. *)
Theorem part001_results_carry_over (input : string) (v : Z) :
  Part001.run input = Return v ->
  Nat.Odd (length (tokens_of input)) /\ Main.run input = Return v.
Proof.
  unfold Part001.run.
  destruct (Part001_New_spec input) as (c' & -> & Hperm & Hrev). cbn [obind].
  set (l := {| tokens := c' |}).
  destruct (Part001.parse (S (length (tokens l))) 0 l) as [[e l'] | |] eqn:Hrun;
    [| done | done].
  cbn [obind]. intros Hv. apply Part001_eval_returns in Hv as [Hv Hodd].
  apply Part001_parse_returns_as in Hrun.
  assert (Htok : Forall tokenizer_token (tokens l)).
  { simpl. rewrite Hperm. apply tokens_of_tokenizer_token. }
  pose proof (Main_parse_exhausts _ 0 _ _ _ ltac:(lia) Hrun) as Hl'.
  pose proof (Main_parse_returns _ _ _ _ _ Htok Hrun) as [_ Hsplit].
  simpl in Hsplit. rewrite Hl' in Hsplit. simpl in Hsplit.
  assert (Hlen : length (tokens_of input) = length (unparse e)).
  { rewrite <- (Permutation_length Hperm), Hsplit. apply length_reverse. }
  rewrite Hlen. split; [done |].
  assert (Hc' : c' = reverse (tokens_of input)).
  { apply Hrev. rewrite Hlen. by apply Nat.odd_spec. }
  unfold Main.run. rewrite Main_New_spec, <- Hc'. cbn [obind].
  fold l. rewrite Hrun. exact Hv.
Qed.

Lemma part001_results_carry_over_witness :
  Nat.Odd (length (tokens_of "8-3-2")) /\ Main.run "8-3-2" = Return 3.
Proof. apply (part001_results_carry_over "8-3-2" 3). vm_compute. reflexivity. Defined.

(** X7: [main] evaluates the first line of its input and nothing after it;
    an input without a newline ends in the panic "Error reading string". *)
Theorem main_reads_one_line (line rest : string) :
  Forall (fun c => c <> 10) (bytes_of_string line) ->
  Main.main (line ++ newline ++ rest) = Main.main (line ++ newline)
  /\ Main.main (line ++ newline)
     = obind (Main.run (line ++ newline)) (fun v => Return (Println v))
  /\ Main.main line = Panic (Explicit "Error reading string").
Proof.
  intros H. unfold Main.main.
  pose proof (ReadString_first_line line "" H) as Hline.
  change (newline ++ "")%string with newline in Hline.
  by rewrite (ReadString_first_line line rest H), Hline, (ReadString_no_newline line H).
Qed.

Lemma main_reads_one_line_witness :
  Main.main ("1+2" ++ newline ++ "3*3" ++ newline) = Main.main ("1+2" ++ newline)
  /\ Main.main "1+2" = Panic (Explicit "Error reading string").
Proof.
  assert (H : Forall (fun c => c <> 10) (bytes_of_string "1+2"))
    by (cbv; repeat (apply Forall_cons_2 || apply Forall_nil_2); discriminate).
  pose proof (main_reads_one_line "1+2" ("3*3" ++ newline) H) as (H1 & _ & H3).
  exact (conj H1 H3).
Defined.

(** X8: [evalExpression] of [main.go] ends in the divide-by-zero panic only
    when the evaluation reaches a division whose right operand evaluates
    to 0. *)
Theorem divide_by_zero_panic_has_one_source (e : Expression) :
  Main.evalExpression e = Panic DivideByZero -> divides_by_zero e.
Proof. apply zero_division_only_from_dividing. Qed.

Lemma divide_by_zero_panic_has_one_source_witness :
  divides_by_zero (InfixExpression (lit 1) (InfixExpression (lit 5) (lit 0) "/") "+").
Proof. apply divide_by_zero_panic_has_one_source. vm_compute. reflexivity. Defined.

(* ===================================================================== *)
(** ** Properties of the cursor and of [Reverse] *)
(* ===================================================================== *)

(** X9: [peek] shows the last token of the slice, or [nil], and changes
    nothing; [next] returns what [peek] shows and removes exactly that
    token; the two snapshots of [next] differ only on the empty slice.  No
    index is ever out of range. *)
Theorem cursor_peek_and_next (l : Lexer) :
  peek l = Return (last (tokens l), l)
  /\ Main.next l
     = Return (last (tokens l),
               {| tokens := take (length (tokens l) - 1) (tokens l) |})
  /\ Part001.next l
     = match last (tokens l) with
       | Some t => Return (Some t, {| tokens := take (length (tokens l) - 1) (tokens l) |})
       | None => Panic (Explicit "Error: tokens empty")
       end.
Proof.
  destruct l as [ts]. destruct (snoc_cases ts) as [-> | (us & u & ->)]; [done |].
  rewrite peek_snoc, Main_next_snoc, Part001_next_snoc. simpl.
  rewrite last_snoc, length_app. simpl.
  replace (length us + 1 - 1)%nat with (length us) by lia.
  by rewrite take_app_length.
Qed.

(** X10: [Reverse] of [main.go] never panics, returns the reversed slice,
    and applied twice gives the slice back. *)
Theorem main_Reverse_reverses (c : TokenArray) :
  Main.Reverse c = Return (reverse c)
  /\ obind (Main.Reverse c) Main.Reverse = Return c.
Proof.
  rewrite Main_Reverse_spec. split; [done |]. simpl.
  by rewrite Main_Reverse_spec, reverse_involutive.
Qed.

Lemma Reverse_loop_strict_even (n : nat) :
  forall (pre post front back : TokenArray) (x y : Token),
    length pre = n -> length post = n ->
    Reverse_loop_strict (front ++ (pre ++ x :: y :: post) ++ back)
      (len front) (len front + len (pre ++ x :: y :: post) - 1)
    = Return (front ++ (reverse post ++ x :: y :: reverse pre) ++ back).
Proof.
  induction n as [| n IH]; intros pre post front back x y Hpre Hpost;
    rewrite Reverse_loop_strict_step.
  - destruct pre; [| done]. destruct post; [| done].
    destruct (decide _) as [Hgt | _]; [| done].
    unfold len in Hgt. simpl in Hgt. lia.
  - destruct pre as [| a pre]; [done |]. simpl in Hpre.
    destruct (snoc_cases post) as [-> | (post' & b & ->)]; [done |].
    rewrite length_app in Hpost. simpl in Hpost.
    destruct (decide _) as [_ | Hle];
      [| unfold len in Hle; simpl in Hle; rewrite !length_app in Hle; simpl in Hle; lia].
    set (mid := pre ++ x :: y :: post').
    replace ((a :: pre) ++ x :: y :: post' ++ [b]) with (a :: mid ++ [b])
      by (unfold mid; simpl; by rewrite <- app_assoc).
    assert (He : len front + len (a :: mid ++ [b]) - 1 = len front + len mid + 1).
    { unfold len. simpl. rewrite length_app. simpl. lia. }
    rewrite He. simpl. rewrite <- !app_assoc. simpl.
    rewrite swap_ends. simpl.
    replace (front ++ b :: mid ++ a :: back) with ((front ++ [b]) ++ mid ++ (a :: back))
      by (by rewrite <- app_assoc).
    replace (len front + 1) with (len (front ++ [b])) by (rewrite len_app; reflexivity).
    replace (len front + len mid + 1 - 1) with (len (front ++ [b]) + len mid - 1)
      by (rewrite len_app; unfold len; simpl; lia).
    unfold mid. rewrite (IH pre post' (front ++ [b]) (a :: back) x y); [| lia | lia].
    rewrite reverse_snoc, reverse_cons. simpl.
    f_equal. rewrite <- !app_assoc. simpl. done.
Qed.

(** X11: [Reverse] of [part_001], exactly: a slice of odd length is
    reversed; in a slice of even length everything is reversed except the
    two middle elements, which stay in their order. *)
Theorem part001_Reverse_exactly (pre post : TokenArray) (x y : Token) :
  length pre = length post ->
  Part001.Reverse (pre ++ x :: post) = Return (reverse (pre ++ x :: post))
  /\ Part001.Reverse (pre ++ x :: y :: post)
     = Return (reverse post ++ x :: y :: reverse pre).
Proof.
  intros Hlen. split.
  - destruct (Part001_Reverse_spec (pre ++ x :: post)) as (c' & -> & _ & Hodd).
    rewrite Hodd; [done |].
    rewrite length_app. simpl. rewrite Hlen.
    replace (length post + S (length post))%nat with (2 * length post + 1)%nat by lia.
    apply Nat.odd_odd.
  - unfold Part001.Reverse.
    pose proof (Reverse_loop_strict_even (length pre) pre post [] [] x y eq_refl
                  (eq_sym Hlen)) as H.
    simpl in H. rewrite !app_nil_r in H. exact H.
Qed.

Lemma part001_Reverse_exactly_witness :
  Part001.Reverse [IntegerToken 1; OperatorToken "+"; IntegerToken 2]
  = Return (reverse [IntegerToken 1; OperatorToken "+"; IntegerToken 2])
  /\ Part001.Reverse [IntegerToken 1; OperatorToken "+"; OperatorToken "-"; IntegerToken 2]
     = Return [IntegerToken 2; OperatorToken "+"; OperatorToken "-"; IntegerToken 1].
Proof.
  exact (part001_Reverse_exactly [IntegerToken 1] [IntegerToken 2]
           (OperatorToken "+") (OperatorToken "-") eq_refl).
Defined.

Lemma deliver_exhausted (k : nat) :
  deliver Main.next k {| tokens := [] |} = Return (replicate k None, {| tokens := [] |}).
Proof.
  induction k as [| k IH]; [done |].
  simpl. unfold bind at 1. rewrite Main_next_nil.
  fold (deliver Main.next). unfold bind. by rewrite IH.
Qed.

(** X12: on every input the cursor of [main.go] hands out the tokenizer's
    output from left to right, one token per [next()], and answers [nil]
    to every call after that. *)
Theorem main_cursor_delivers_then_nil (input : string) (k : nat) :
  exists ts l,
    tokenize input = Return ts
    /\ Main.New input = Return l
    /\ deliver Main.next (length ts + k) l
       = Return ((Some <$> ts) ++ replicate k None, {| tokens := [] |}).
Proof.
  exists (tokens_of input), {| tokens := reverse (tokens_of input) |}.
  split; [apply tokenize_spec | split; [apply Main_New_spec |]].
  induction (tokens_of input) as [| t ts IH]; [apply deliver_exhausted |].
  simpl. unfold bind at 1. rewrite reverse_cons, Main_next_snoc.
  fold (deliver Main.next). unfold bind. by rewrite IH.
Qed.

(* ===================================================================== *)
(** ** Properties of the tokenizer *)
(* ===================================================================== *)

Lemma bytes_of_string_nonneg (s : string) : Forall (fun b => 0 <= b) (bytes_of_string s).
Proof.
  unfold bytes_of_string. induction (list_ascii_of_string s) as [| c cs IH]; simpl.
  - constructor.
  - constructor; [lia | exact IH].
Qed.

Lemma omap_significant (bs : list Z) :
  omap token_of_byte bs = omap token_of_byte (List.filter significant bs).
Proof.
  induction bs as [| c bs IH]; [done |]. simpl.
  destruct (significant c) eqn:Hc; simpl.
  { destruct (token_of_byte c); [f_equal |]; exact IH. }
  assert (Hnone : token_of_byte c = None).
  { apply token_of_byte_None. unfold significant, between in Hc.
    rewrite !orb_false_iff, andb_false_iff, !Z.eqb_neq, !Z.leb_gt in Hc. lia. }
  rewrite Hnone. exact IH.
Qed.

(** X13: two ASCII inputs with the same digits and operators in the same
    order give the same tokens, whatever else stands between them: spaces,
    letters, parentheses and every other ASCII character are dropped
    without a trace. *)
Theorem ascii_noise_is_dropped (s1 s2 : string) :
  Forall (fun b => b < 128) (bytes_of_string s1) ->
  Forall (fun b => b < 128) (bytes_of_string s2) ->
  List.filter significant (bytes_of_string s1)
  = List.filter significant (bytes_of_string s2) ->
  tokenize s1 = tokenize s2.
Proof.
  intros H1 H2 Hsame.
  assert (Hascii : forall s, Forall (fun b => b < 128) (bytes_of_string s) ->
                     Forall (fun b => 0 <= b < 128) (bytes_of_string s)).
  { intros s Hs. pose proof (bytes_of_string_nonneg s) as Hn.
    rewrite Forall_forall in *. intros b Hb. split; [by apply Hn | by apply Hs]. }
  rewrite !tokenize_spec, !tokens_of_ascii by auto.
  by rewrite (omap_significant (bytes_of_string s1)), Hsame, <- omap_significant.
Qed.

Lemma ascii_noise_is_dropped_witness : tokenize "(1 + 2) x 3 = ?" = tokenize "1+23".
Proof.
  apply ascii_noise_is_dropped;
    cbv; repeat (apply Forall_cons_2 || apply Forall_nil_2); reflexivity.
Defined.

(** X15: a single digit evaluates to itself, in the three snapshots. *)
Theorem single_digit_evaluates_to_itself (c : Z) :
  48 <= c <= 57 ->
  Main.run (string_of_byte c) = Return (c - 48)
  /\ Part000.run (string_of_byte c) = Return (c - 48)
  /\ Part001.run (string_of_byte c) = Return (c - 48).
Proof.
  intros H.
  assert (Hc : c = 48 \/ c = 49 \/ c = 50 \/ c = 51 \/ c = 52 \/ c = 53
               \/ c = 54 \/ c = 55 \/ c = 56 \/ c = 57) by lia.
  repeat (destruct Hc as [-> | Hc]; [by_running |]).
  subst c. by_running.
Qed.

Lemma single_digit_evaluates_to_itself_witness : Main.run "7" = Return 7.
Proof. exact (proj1 (single_digit_evaluates_to_itself 55 ltac:(lia))). Defined.

(* ===================================================================== *)
(** ** Chains of operators of one precedence level *)
(* ===================================================================== *)

Lemma operand_before_weaker_operator (d : nat) (r_bp b : Z) (ts : TokenArray) :
  (ts = []
   \/ exists us o l_bp r', ts = us ++ [OperatorToken o]
        /\ map_get operatorBindingPowerMap o = [l_bp; r'] /\ l_bp < r_bp) ->
  Main.parse (S d) r_bp {| tokens := ts ++ [IntegerToken b] |}
  = Return (lit b, {| tokens := ts |}).
Proof.
  intros Hts. cbn [Main.parse]. unfold Main.parse_call.
  unfold bind at 1. rewrite Main_next_snoc. unfold parse_rest. cbn [parse_loop].
  destruct Hts as [-> | (us & o & l_bp & r' & -> & Ho & Hlt)].
  - unfold bind. by rewrite peek_nil.
  - unfold bind at 1. rewrite peek_snoc.
    unfold bind at 1, lift at 1. rewrite Ho. cbn [index obind].
    change (index [l_bp; r'] 0) with (Return (A := Z) l_bp). cbn [obind].
    unfold bind at 1, lift at 1.
    change (index [l_bp; r'] 1) with (Return (A := Z) r'). cbn [obind].
    by destruct (Z.ltb_spec l_bp r_bp); [| lia].
Qed.

Lemma chain_loop (l_bp r_bp min_bp : Z) :
  l_bp < r_bp -> min_bp <= l_bp ->
  forall (rest : list (string * Z)) (lhs : Expression) (iters d : nat),
    Forall (fun ob => map_get operatorBindingPowerMap ob.1 = [l_bp; r_bp]) rest ->
    (length rest < iters)%nat ->
    parse_loop Main.next (Main.parse (S d)) iters min_bp lhs
      {| tokens := reverse (chain_tokens rest) |}
    = Return (chain_tree lhs rest, {| tokens := [] |}).
Proof.
  intros Hlr Hmin. induction rest as [| [o b] rest IH]; intros lhs iters d Hall Hit.
  - destruct iters as [| iters]; [simpl in Hit; lia |].
    change (reverse (chain_tokens [])) with (@nil Token).
    cbn [parse_loop]. unfold bind. by rewrite peek_nil.
  - destruct iters as [| iters]; [simpl in Hit; lia |].
    apply Forall_cons in Hall as [Ho Hall]. simpl in Ho.
    change (chain_tokens ((o, b) :: rest))
      with (OperatorToken o :: IntegerToken b :: chain_tokens rest).
    rewrite !reverse_cons. cbn [parse_loop].
    unfold bind at 1. rewrite peek_snoc.
    unfold bind at 1, lift at 1. rewrite Ho.
    change (index [l_bp; r_bp] 0) with (Return (A := Z) l_bp). cbn [obind].
    unfold bind at 1, lift at 1.
    change (index [l_bp; r_bp] 1) with (Return (A := Z) r_bp). cbn [obind].
    destruct (Z.ltb_spec l_bp min_bp); [lia |].
    unfold bind at 1. rewrite Main_next_snoc.
    unfold bind at 1. rewrite operand_before_weaker_operator.
    + apply IH; [done | simpl in Hit; lia].
    + destruct rest as [| [o' b'] rest']; [by left | right].
      apply Forall_cons in Hall as [Ho' _]. simpl in Ho'.
      exists (reverse (chain_tokens rest') ++ [IntegerToken b']), o', l_bp, r_bp.
      split; [| done].
      change (chain_tokens ((o', b') :: rest'))
        with (OperatorToken o' :: IntegerToken b' :: chain_tokens rest').
      by rewrite !reverse_cons.
Qed.

Lemma chain_tokens_length (rest : list (string * Z)) :
  length (chain_tokens rest) = (2 * length rest)%nat.
Proof. induction rest as [| ob rest IH]; simpl; lia. Qed.

Lemma chain_tree_value (rest : list (string * Z)) :
  forall lhs,
    Main.evalExpression (chain_tree lhs rest)
    = fold_left (fun acc ob => obind acc (fun x => apply_op ob.1 x ob.2)) rest
        (Main.evalExpression lhs).
Proof.
  induction rest as [| [o b] rest IH]; intros lhs; [done |].
  simpl. rewrite IH. f_equal. simpl.
  destruct (Main.evalExpression lhs); simpl; [| done | done].
  apply call_operation.
Qed.

(** X14: an operand followed by any number of operator and operand pairs,
    the operators all additive or all multiplicative, parses in [main.go] to
    the tree that groups from the left and leaves no token; its value is
    the left fold of the operations over the operands. *)
Theorem same_level_chain_groups_left
    (level : list string) (a : Z) (rest : list (string * Z)) :
  level = ["+"; "-"]%string \/ level = ["*"; "/"]%string ->
  Forall (fun ob => ob.1 ∈ level) rest ->
  parse_tokens Main.parse (IntegerToken a :: chain_tokens rest)
  = Return (chain_tree (lit a) rest, {| tokens := [] |})
  /\ Main.evalExpression (chain_tree (lit a) rest)
     = fold_left (fun acc ob => obind acc (fun x => apply_op ob.1 x ob.2)) rest (Return a).
Proof.
  intros Hlevel Hall. split; [| apply chain_tree_value].
  assert (Hpow : exists l_bp r_bp, l_bp < r_bp /\ 0 <= l_bp /\
            Forall (fun ob => map_get operatorBindingPowerMap ob.1 = [l_bp; r_bp]) rest).
  { destruct Hlevel as [-> | ->]; [exists 1, 2 | exists 3, 4];
      (split; [lia | split; [lia |]]);
      (eapply Forall_impl; [exact Hall |]); intros [o b] Ho; simpl in *;
      rewrite !elem_of_cons, elem_of_nil in Ho;
      destruct Ho as [-> | [-> | []]]; reflexivity. }
  destruct Hpow as (l_bp & r_bp & Hlr & Hl & Hpow).
  unfold parse_tokens. cbn [length Main.parse]. unfold Main.parse_call.
  rewrite reverse_cons. unfold bind at 1. rewrite Main_next_snoc.
  unfold parse_rest. cbn [tokens].
  apply (chain_loop l_bp r_bp 0 Hlr Hl); [done |].
  rewrite length_reverse, chain_tokens_length. lia.
Qed.

Lemma same_level_chain_groups_left_witness :
  parse_tokens Main.parse
    [IntegerToken 8; OperatorToken "-"; IntegerToken 3; OperatorToken "+"; IntegerToken 2;
     OperatorToken "-"; IntegerToken 1]
  = Return (InfixExpression
              (InfixExpression (InfixExpression (lit 8) (lit 3) "-") (lit 2) "+")
              (lit 1) "-",
            {| tokens := [] |}).
Proof.
  refine (proj1 (same_level_chain_groups_left ["+"; "-"]%string 8
                   [("-"%string, 3); ("+"%string, 2); ("-"%string, 1)] _ _)).
  - by left.
  - repeat (apply Forall_cons_2 || apply Forall_nil_2); simpl;
      rewrite !elem_of_cons; auto.
Defined.

Lemma range_runes_length_fuel (n : nat) :
  forall s, (length s <= n)%nat -> (length (range_runes s) <= length s)%nat.
Proof.
  induction n as [| n IH]; intros s Hn.
  - destruct s; [done | simpl in Hn; lia].
  - destruct s as [| b0 t0]; [done |].
    simpl. simpl in Hn.
    repeat case_match; subst; cbn [length] in *;
      match goal with
      | |- context [range_runes ?t] =>
        pose proof (IH t ltac:(cbn [length]; lia)); cbn [length] in *; lia
      end.
Qed.

Lemma range_runes_length (s : list Z) : (length (range_runes s) <= length s)%nat.
Proof. by apply (range_runes_length_fuel (length s)). Qed.

Lemma omap_length {A B} (f : A -> option B) (l : list A) :
  (length (omap f l) <= length l)%nat.
Proof.
  unfold omap. induction l as [| a l IH]; [done |]. simpl. destruct (f a); simpl; lia.
Qed.

(** X16: the tokenizer never panics, and it produces at most one token per
    byte of the input. *)
Theorem tokenizer_output_is_bounded (input : string) :
  exists ts, tokenize input = Return ts /\ (length ts <= String.length input)%nat.
Proof.
  exists (tokens_of input). split; [apply tokenize_spec |].
  unfold tokens_of, charArray.
  etrans; [apply omap_length |]. rewrite length_map.
  etrans; [apply range_runes_length |].
  unfold bytes_of_string. rewrite length_map.
  induction input as [| c s IH]; simpl; lia.
Qed.

(* ===================================================================== *)
(** ** [parse] on the grammar of sums, terms and operands *)
(* ===================================================================== *)

Lemma stops_at_mono (bp bp' : Z) (ts : TokenArray) :
  bp <= bp' -> stops_at bp ts -> stops_at bp' ts.
Proof.
  intros Hle [-> | (us & o & l_bp & r_bp & -> & Ho & Hlt)]; [by left | right].
  exists us, o, l_bp, r_bp. repeat split; [done | lia].
Qed.

Lemma stops_at_snoc (bp : Z) (us : TokenArray) (o : string) (l_bp r_bp : Z) :
  map_get operatorBindingPowerMap o = [l_bp; r_bp] -> l_bp < bp ->
  stops_at bp (us ++ [OperatorToken o]).
Proof. intros Ho Hlt. right. by exists us, o, l_bp, r_bp. Qed.

Lemma parse_loop_stops (next : M (option Token)) (rec : Z -> M Expression)
    (iters : nat) (min_bp : Z) (lhs : Expression) (ts : TokenArray) :
  stops_at min_bp ts ->
  parse_loop next rec (S iters) min_bp lhs {| tokens := ts |}
  = Return (lhs, {| tokens := ts |}).
Proof.
  intros [-> | (us & o & l_bp & r_bp & -> & Ho & Hlt)]; cbn [parse_loop].
  - unfold bind. by rewrite peek_nil.
  - unfold bind at 1. rewrite peek_snoc.
    unfold bind at 1, lift at 1. rewrite Ho.
    change (index [l_bp; r_bp] 0) with (Return (A := Z) l_bp). cbn [obind].
    unfold bind at 1, lift at 1.
    change (index [l_bp; r_bp] 1) with (Return (A := Z) r_bp). cbn [obind].
    by destruct (Z.ltb_spec l_bp min_bp); [| lia].
Qed.

Section Links.
Context {Item : Type}.
Variable item_tokens : Item -> TokenArray.
Variable item_tree : Item -> Expression.
Variable next : M (option Token).
Variable rec : Z -> M Expression.
Variables l_bp r_bp : Z.
Hypothesis Hnext :
  forall us u, next {| tokens := us ++ [u] |} = Return (Some u, {| tokens := us |}).
Hypothesis Hlr : l_bp < r_bp.

(** The loop takes the links one after the other, each with one iteration,
    and goes on with the tree built so far. *)
Lemma parse_loop_links (rest : list (string * Item)) :
  forall (lhs : Expression) (iters : nat) (outer : TokenArray) (min_bp : Z),
    min_bp <= l_bp ->
    stops_at r_bp outer ->
    Forall (fun oi => map_get operatorBindingPowerMap oi.1 = [l_bp; r_bp]
                      /\ item_parsed item_tokens item_tree rec r_bp oi.2) rest ->
    parse_loop next rec (length rest + iters) min_bp lhs
      {| tokens := outer ++ reverse (link_tokens item_tokens rest) |}
    = parse_loop next rec iters min_bp (link_tree item_tree lhs rest)
        {| tokens := outer |}.
Proof.
  induction rest as [| [o it] rest IH]; intros lhs iters outer min_bp Hmin Hout Hall.
  - change (reverse (link_tokens item_tokens [])) with (@nil Token).
    by rewrite app_nil_r.
  - apply Forall_cons in Hall as [[Ho Hit] Hall]. simpl in Ho, Hit.
    change (link_tokens item_tokens ((o, it) :: rest))
      with (OperatorToken o :: item_tokens it ++ link_tokens item_tokens rest).
    rewrite reverse_cons, reverse_app, !app_assoc.
    change (length ((o, it) :: rest) + iters)%nat with (S (length rest + iters)).
    cbn [parse_loop].
    unfold bind at 1. rewrite peek_snoc.
    unfold bind at 1, lift at 1. rewrite Ho.
    change (index [l_bp; r_bp] 0) with (Return (A := Z) l_bp). cbn [obind].
    unfold bind at 1, lift at 1.
    change (index [l_bp; r_bp] 1) with (Return (A := Z) r_bp). cbn [obind].
    destruct (Z.ltb_spec l_bp min_bp); [lia |].
    unfold bind at 1. rewrite Hnext.
    unfold bind at 1. rewrite Hit.
    + by apply IH.
    + destruct rest as [| [o' it'] rest'].
      * change (reverse (link_tokens item_tokens [])) with (@nil Token).
        by rewrite app_nil_r.
      * apply Forall_cons in Hall as [[Ho' _] _]. simpl in Ho'.
        change (link_tokens item_tokens ((o', it') :: rest'))
          with (OperatorToken o' :: item_tokens it' ++ link_tokens item_tokens rest').
        rewrite reverse_cons, app_assoc.
        by eapply stops_at_snoc.
Qed.
End Links.

Lemma Main_parse_S (d : nat) (bp : Z) (l : Lexer) :
  Main.parse (S d) bp l = Main.parse_call (Main.parse d) bp l.
Proof. reflexivity. Qed.

Lemma additive_powers (o : string) :
  additive o ->
  map_get operatorBindingPowerMap o = [1; 2]
  /\ map_get prefixBindingPowerMap o = [0; 5]
  /\ String.eqb o "(" = false.
Proof. intros [-> | ->]; by_running. Qed.

Lemma multiplicative_powers (o : string) :
  multiplicative o -> map_get operatorBindingPowerMap o = [3; 4].
Proof. intros [-> | ->]; reflexivity. Qed.

Lemma stops_at_links {Item} (item_tokens : Item -> TokenArray) (bp l_bp r_bp : Z)
    (outer : TokenArray) (rest : list (string * Item)) :
  stops_at bp outer ->
  Forall (fun oi => map_get operatorBindingPowerMap oi.1 = [l_bp; r_bp]) rest ->
  l_bp < bp ->
  stops_at bp (outer ++ reverse (link_tokens item_tokens rest)).
Proof.
  intros Hout Hall Hlt. destruct rest as [| [o it] rest].
  - change (reverse (link_tokens item_tokens [])) with (@nil Token).
    by rewrite app_nil_r.
  - apply Forall_cons in Hall as [Ho _]. simpl in Ho.
    change (link_tokens item_tokens ((o, it) :: rest))
      with (OperatorToken o :: item_tokens it ++ link_tokens item_tokens rest).
    rewrite reverse_cons, app_assoc. by eapply stops_at_snoc.
Qed.

Lemma link_tokens_length {Item} (item_tokens : Item -> TokenArray)
    (rest : list (string * Item)) :
  (length rest <= length (link_tokens item_tokens rest))%nat
  /\ Forall (fun oi => (length (item_tokens oi.2) < length (link_tokens item_tokens rest))%nat)
       rest.
Proof.
  induction rest as [| [o it] rest [IH1 IH2]]; [split; [done | constructor] |].
  change (link_tokens item_tokens ((o, it) :: rest))
    with (OperatorToken o :: item_tokens it ++ link_tokens item_tokens rest).
  cbn [length]. rewrite length_app. split; [lia |].
  constructor; [simpl; lia |].
  eapply Forall_impl; [exact IH2 |]. intros oi Hoi. simpl in *. lia.
Qed.

(** The leading operand of an activation: its prefix operators are each
    parsed by a recursive call with minimum 5, which stops at any infix
    operator; then the loop of the activation goes on. *)
Lemma lead_operand (ps : list string) (a : Z) :
  forall (d : nat) (bp : Z) (ts : TokenArray),
    Forall additive ps ->
    (length ps <= d)%nat ->
    stops_at 5 ts ->
    Main.parse (S d) bp {| tokens := ts ++ reverse (operand_tokens (ps, a)) |}
    = parse_rest Main.next (Main.parse d) bp (operand_tree (ps, a)) {| tokens := ts |}.
Proof.
  induction ps as [| p ps IH]; intros d bp ts Hps Hd Hts.
  - change (reverse (operand_tokens ([], a))) with [IntegerToken a].
    rewrite Main_parse_S. unfold Main.parse_call.
    unfold bind at 1. by rewrite Main_next_snoc.
  - apply Forall_cons in Hps as [Hp Hps].
    destruct (additive_powers p Hp) as (_ & Hpre & Hparen).
    destruct d as [| d]; [simpl in Hd; lia |]. simpl in Hd.
    change (operand_tokens (p :: ps, a))
      with (OperatorToken p :: operand_tokens (ps, a)).
    rewrite reverse_cons, app_assoc.
    rewrite Main_parse_S. unfold Main.parse_call.
    unfold bind at 1. rewrite Main_next_snoc. rewrite Hparen.
    unfold bind at 1. unfold ret at 1.
    unfold bind at 1, lift at 1. rewrite Hpre.
    change (index [0; 5] 1) with (Return (A := Z) 5). cbn [obind].
    unfold bind at 1. rewrite (IH d 5 ts Hps ltac:(lia) Hts).
    unfold parse_rest at 1. by rewrite parse_loop_stops.
Qed.

Lemma operand_parsed (d : nat) (r_bp : Z) (x : operand) :
  operand_ok x -> (length x.1 <= d)%nat -> r_bp <= 5 ->
  item_parsed operand_tokens operand_tree (Main.parse (S d)) r_bp x.
Proof.
  destruct x as [ps a]. intros Hx Hd Hr ts Hts.
  rewrite lead_operand; [| exact Hx | exact Hd | by apply (stops_at_mono r_bp)].
  unfold parse_rest. by apply parse_loop_stops.
Qed.

Lemma operand_tokens_length (x : operand) :
  length (operand_tokens x) = S (length x.1).
Proof. unfold operand_tokens. rewrite length_app, length_fmap. simpl. lia. Qed.

Lemma operands_parsed (d : nat) (ms : list (string * operand)) :
  Forall (fun oi => multiplicative oi.1 /\ operand_ok oi.2) ms ->
  (length (link_tokens operand_tokens ms) <= d)%nat ->
  Forall (fun oi => map_get operatorBindingPowerMap oi.1 = [3; 4]
                    /\ item_parsed operand_tokens operand_tree (Main.parse d) 4 oi.2) ms.
Proof.
  intros Hms Hd.
  destruct (link_tokens_length operand_tokens ms) as [_ Hlen].
  rewrite Forall_forall in *. intros [o y] Hin.
  destruct (Hms _ Hin) as [Ho Hy]. specialize (Hlen _ Hin). simpl in *.
  split; [by apply multiplicative_powers |].
  rewrite operand_tokens_length in Hlen.
  destruct d as [| d]; [lia |].
  apply operand_parsed; [done | lia | lia].
Qed.

(** A recursive call with minimum 2, the right binding power of the
    additive operators, parses one term and stops after it. *)
Lemma term_parsed (d : nat) (t : term) :
  term_ok t -> (length (term_tokens t) <= d)%nat ->
  item_parsed term_tokens term_tree (Main.parse (S d)) 2 t.
Proof.
  destruct t as [[ps a] ms]. intros [Hx Hms] Hd ts Hts.
  unfold term_tokens in *. cbn [fst snd] in *.
  rewrite length_app, operand_tokens_length in Hd. cbn [fst] in Hd.
  assert (Hpow : Forall (fun oi : string * operand =>
                   map_get operatorBindingPowerMap oi.1 = [3; 4]) ms).
  { eapply Forall_impl; [exact Hms |]. intros oi [Ho _]. by apply multiplicative_powers. }
  rewrite reverse_app, app_assoc.
  rewrite lead_operand; [| exact Hx | lia |].
  2:{ apply (stops_at_links _ 5 3 4); [apply (stops_at_mono 2); [lia | done] | done | lia]. }
  unfold parse_rest. cbn [tokens].
  destruct (link_tokens_length operand_tokens ms) as [Hcount _].
  set (L := ts ++ reverse (link_tokens operand_tokens ms)).
  assert (Hiters : exists k, S (length L) = (length ms + S k)%nat).
  { exists (length L - length ms)%nat. unfold L. rewrite length_app, length_reverse. lia. }
  destruct Hiters as [k ->]. unfold L.
  rewrite (parse_loop_links operand_tokens operand_tree Main.next (Main.parse d) 3 4
             Main_next_snoc ltac:(lia)); [| lia | apply (stops_at_mono 2); [lia | done] | ].
  - unfold term_tree. cbn [fst snd]. by apply parse_loop_stops.
  - apply operands_parsed; [done | lia].
Qed.

Lemma terms_parsed (d : nat) (ss : list (string * term)) :
  Forall (fun oi => additive oi.1 /\ term_ok oi.2) ss ->
  (length (link_tokens term_tokens ss) <= d)%nat ->
  Forall (fun oi => map_get operatorBindingPowerMap oi.1 = [1; 2]
                    /\ item_parsed term_tokens term_tree (Main.parse d) 2 oi.2) ss.
Proof.
  intros Hss Hd.
  destruct (link_tokens_length term_tokens ss) as [_ Hlen].
  rewrite Forall_forall in *. intros [o t] Hin.
  destruct (Hss _ Hin) as [Ho Ht]. specialize (Hlen _ Hin). simpl in *.
  split; [by apply additive_powers |].
  destruct d as [| d]; [lia |].
  apply term_parsed; [done | lia].
Qed.

(** X17: every token sequence of the grammar (terms joined by [+] and [-],
    each term operands joined by [*] and [/], each operand a digit under
    any number of prefix [+] and [-]) is parsed by [main.go] to the tree
    of that grammar, with nothing left on the cursor: multiplicative
    operators bind tighter than additive ones, both group to the left, and
    prefix operators bind tightest. *)
Theorem parse_follows_the_grammar (s : sum) :
  sum_ok s ->
  parse_tokens Main.parse (sum_tokens s) = Return (sum_tree s, {| tokens := [] |}).
Proof.
  destruct s as [[[ps a] ms] ss]. intros [[Hx Hms] Hss].
  unfold parse_tokens, sum_tokens. cbn [fst snd] in *.
  change (term_tokens (ps, a, ms))
    with (operand_tokens (ps, a) ++ link_tokens operand_tokens ms).
  set (n := length ((operand_tokens (ps, a) ++ link_tokens operand_tokens ms)
                    ++ link_tokens term_tokens ss)).
  assert (Hn : n = (S (length ps) + length (link_tokens operand_tokens ms)
                    + length (link_tokens term_tokens ss))%nat).
  { unfold n. by rewrite !length_app, operand_tokens_length. }
  assert (Hmul : Forall (fun oi : string * operand =>
                   map_get operatorBindingPowerMap oi.1 = [3; 4]) ms).
  { eapply Forall_impl; [exact Hms |]. intros oi [Ho _]. by apply multiplicative_powers. }
  assert (Hadd : Forall (fun oi : string * term =>
                   map_get operatorBindingPowerMap oi.1 = [1; 2]) ss).
  { eapply Forall_impl; [exact Hss |]. intros oi [Ho _]. by apply additive_powers. }
  rewrite !reverse_app, !app_assoc.
  rewrite lead_operand; [| exact Hx | lia |].
  2:{ apply (stops_at_links _ 5 3 4); [| done | lia].
      apply (stops_at_links _ 5 1 2 []); [by left | done | lia]. }
  unfold parse_rest. cbn [tokens].
  destruct (link_tokens_length operand_tokens ms) as [Hcm _].
  destruct (link_tokens_length term_tokens ss) as [Hcs _].
  set (L := reverse (link_tokens term_tokens ss)
            ++ reverse (link_tokens operand_tokens ms)).
  assert (Hiters : exists k, S (length L) = (length ms + (length ss + S k))%nat).
  { exists (length L - length ms - length ss)%nat.
    unfold L. rewrite length_app, !length_reverse. lia. }
  destruct Hiters as [k ->]. unfold L.
  rewrite (parse_loop_links operand_tokens operand_tree Main.next (Main.parse n) 3 4
             Main_next_snoc ltac:(lia)); [| lia | | ].
  - change (reverse (link_tokens term_tokens ss))
      with ([] ++ reverse (link_tokens term_tokens ss)).
    rewrite (parse_loop_links term_tokens term_tree Main.next (Main.parse n) 1 2
               Main_next_snoc ltac:(lia)); [| lia | by left | ].
    + by apply parse_loop_stops; left.
    + apply terms_parsed; [done | lia].
  - apply (stops_at_links _ 4 1 2 []); [by left | done | lia].
  - apply operands_parsed; [done | lia].
Qed.

Lemma parse_follows_the_grammar_witness :
  parse_tokens Main.parse
    [OperatorToken "-"; IntegerToken 1; OperatorToken "+"; IntegerToken 2;
     OperatorToken "*"; OperatorToken "-"; IntegerToken 3; OperatorToken "/"; IntegerToken 4;
     OperatorToken "-"; IntegerToken 5]
  = Return
      (InfixExpression
         (InfixExpression (PrefixExpression "-" (lit 1))
            (InfixExpression
               (InfixExpression (lit 2) (PrefixExpression "-" (lit 3)) "*")
               (lit 4) "/") "+")
         (lit 5) "-",
       {| tokens := [] |}).
Proof.
  apply (parse_follows_the_grammar
           (((["-"%string], 1), []),
            [("+"%string, (([], 2), [("*"%string, (["-"%string], 3)); ("/"%string, ([], 4))]));
             ("-"%string, (([], 5), []))])).
  unfold sum_ok, term_ok, operand_ok, additive, multiplicative. simpl.
  repeat (split || apply Forall_cons_2 || apply Forall_nil_2); auto.
Defined.

(* ===================================================================== *)
(** ** Evaluation without overflow *)
(* ===================================================================== *)

Lemma digits_positive (e : Expression) : well_formed e -> (1 <= digits e)%nat.
Proof. induction 1; simpl; lia. Qed.

Lemma quot_abs_le (a b : Z) : b <> 0 -> Z.abs (Z.quot a b) <= Z.abs a.
Proof.
  intros Hb. rewrite <- Z.quot_abs by done.
  assert (Ha : 0 <= Z.abs a) by lia. assert (Hb' : 0 < Z.abs b) by lia.
  pose proof (Z.quot_pos (Z.abs a) (Z.abs b) Ha Hb') as Hq.
  pose proof (Z.mul_quot_le (Z.abs a) (Z.abs b) Ha ltac:(lia)) as Hm.
  nia.
Qed.

(** The exact value of an expression of [n] digits is at most [9^n] in
    absolute value. *)
Lemma exact_bound (e : Expression) :
  well_formed e ->
  forall v, exact e = Return v -> Z.abs v <= 9 ^ Z.of_nat (digits e).
Proof.
  induction 1 as [v Hv | op rhs Hop _ IH | lhs rhs op Hop Hl IHl Hr IHr]; intros w; simpl.
  - intros [= <-]. change (9 ^ 1) with 9. lia.
  - destruct (exact rhs) as [v | |]; [| done | done]. simpl. intros [= <-].
    specialize (IH v eq_refl). destruct (String.eqb op "-"); lia.
  - destruct (exact lhs) as [a | |]; [| done | done].
    destruct (exact rhs) as [b | |]; [| done | done]. simpl.
    specialize (IHl a eq_refl). specialize (IHr b eq_refl).
    apply digits_positive in Hl, Hr.
    rewrite Nat2Z.inj_add, Z.pow_add_r by lia.
    assert (Hm : 9 <= 9 ^ Z.of_nat (digits lhs)).
    { change 9 with (9 ^ 1) at 1. apply Z.pow_le_mono_r; lia. }
    assert (Hn : 9 <= 9 ^ Z.of_nat (digits rhs)).
    { change 9 with (9 ^ 1) at 1. apply Z.pow_le_mono_r; lia. }
    destruct (String.eqb op "+"); [intros [= <-]; nia |].
    destruct (String.eqb op "-"); [intros [= <-]; nia |].
    destruct (String.eqb op "*"); [intros [= <-]; nia |].
    destruct (Z.eqb_spec b 0) as [-> | Hb]; [done |]. intros [= <-].
    pose proof (quot_abs_le a b Hb). nia.
Qed.

Lemma wrap_small (v : Z) : Z.abs v <= 9 ^ 19 -> GoInt.wrap v = v.
Proof.
  intros Hv. unfold GoInt.wrap, GoInt.bits.
  change (2 ^ (64 - 1)) with 9223372036854775808.
  change (2 ^ 64) with 18446744073709551616.
  change (9 ^ 19) with 1350851717672992089 in Hv.
  rewrite Z.mod_small; lia.
Qed.

(** X18: an expression of at most 19 digits is evaluated by [main.go]
    without overflow: the result is the exact integer value, or the
    divide-by-zero panic where the exact evaluation divides by zero. *)
Theorem nineteen_digits_evaluate_exactly (e : Expression) :
  well_formed e -> (digits e <= 19)%nat -> Main.evalExpression e = exact e.
Proof.
  induction 1 as [v Hv | op rhs Hop Hwf IH | lhs rhs op Hop Hl IHl Hr IHr]; intros Hd.
  - done.
  - simpl in *. unfold evalPrefix. rewrite (IH Hd).
    pose proof (exact_bound rhs Hwf) as Hb.
    destruct (exact rhs) as [v | |]; [| by destruct Hop as [-> | ->] ..].
    specialize (Hb v eq_refl).
    assert (Hv : Z.abs v <= 9 ^ 19).
    { etrans; [exact Hb |]. apply Z.pow_le_mono_r; lia. }
    destruct Hop as [-> | ->]; simpl; f_equal; unfold GoInt.mul;
      rewrite wrap_small; lia.
  - pose proof (exact_bound _ (wf_infix lhs rhs op Hop Hl Hr)) as Hb.
    simpl in *. rewrite (IHl ltac:(lia)), (IHr ltac:(lia)).
    destruct (exact lhs) as [a | |]; [| done | done].
    destruct (exact rhs) as [b | |]; [| done | done]. simpl in *.
    rewrite call_operation.
    assert (Hw : forall w, Z.abs w <= 9 ^ Z.of_nat (digits lhs + digits rhs) ->
                   GoInt.wrap w = w).
    { intros w Hw. apply wrap_small. etrans; [exact Hw |]. apply Z.pow_le_mono_r; lia. }
    destruct Hop as [-> | [-> | [-> | ->]]]; simpl in *; unfold apply_op; simpl.
    + f_equal. apply Hw. by apply Hb.
    + f_equal. apply Hw. by apply Hb.
    + f_equal. apply Hw. by apply Hb.
    + unfold GoInt.div. destruct (b =? 0); [done |]. f_equal. apply Hw. by apply Hb.
Qed.

Lemma nineteen_digits_evaluate_exactly_witness :
  Main.evalExpression (InfixExpression (lit 7) (PrefixExpression "-" (lit 2)) "/")
  = Return (-3).
Proof.
  apply (nineteen_digits_evaluate_exactly
           (InfixExpression (lit 7) (PrefixExpression "-" (lit 2)) "/")).
  - apply wf_infix; [auto 10 | apply wf_lit; lia |].
    apply wf_prefix; [auto | apply wf_lit; lia].
  - simpl. lia.
Defined.

(** With twenty digits the result can wrap around. *)
Lemma twenty_nines_overflow :
  Main.run "9*9*9*9*9*9*9*9*9*9*9*9*9*9*9*9*9*9*9*9" = Return (-6289078614652622815)
  /\ 9 ^ 20 = 12157665459056928801.
Proof. by_running. Qed.
